(** * Dice face resolution, settle detection and roll aggregation (App.tsx)

    A shallow embedding of the logic of [src/App.tsx]:

    - [getDiceValue]  : which face of a die points up, from its orientation;
    - [roll]          : the throw (reset pose, random rotation and impulses);
    - [useFrame]      : the per-tick settle poll of one die;
    - [rollAll], [onSettled] : the aggregation of the three dice in [App].

    JavaScript numbers are IEEE 754 binary64 values; they are modelled by
    Rocq's primitive [float], whose operations are the binary64 ones
    (round to nearest, ties to even), so that every definition below runs on
    the very values the program computes with, NaN and infinities included.

    A state of a component ([useState]) is read through the constant of
    the last render; a call of its setter changes the state, and the
    constant follows at the next render.  Nothing in the program orders the
    renders with the ticks of the frame loop: a render is an event of the
    model, like a tick or a click. *)

From Stdlib Require Import Floats ZArith List Bool Lia PeanoNat.
From Stdlib Require String DecimalString.
Import ListNotations.
Import String.StringSyntax.

#[local] Set Warnings "-inexact-float".
#[local] Open Scope float_scope.
Delimit Scope string_scope with string.

(** ** three.js value types *)

Module THREE.

(** [THREE.Vector3]: three numbers. *)
Record Vector3 : Set := mkVector3 { vx : float; vy : float; vz : float }.

(** [THREE.Quaternion], constructor order (x, y, z, w). *)
Record Quaternion : Set :=
  mkQuaternion { qx : float; qy : float; qz : float; qw : float }.

(** [Vector3.dot]:  this.x * v.x + this.y * v.y + this.z * v.z. *)
Definition dot (a b : Vector3) : float :=
  vx a * vx b + vy a * vy b + vz a * vz b.

(** [Vector3.applyQuaternion] (three.js r158 and later):
<<
    const tx = 2 * ( qy * vz - qz * vy );
    const ty = 2 * ( qz * vx - qx * vz );
    const tz = 2 * ( qx * vy - qy * vx );
    this.x = vx + qw * tx + qy * tz - qz * ty;
    this.y = vy + qw * ty + qz * tx - qx * tz;
    this.z = vz + qw * tz + qx * ty - qy * tx;
>>
    The operations associate to the left, as in JavaScript. *)
Definition applyQuaternion (v : Vector3) (q : Quaternion) : Vector3 :=
  let tx := 2 * (qy q * vz v - qz q * vy v) in
  let ty := 2 * (qz q * vx v - qx q * vz v) in
  let tz := 2 * (qx q * vy v - qy q * vx v) in
  mkVector3 (vx v + qw q * tx + qy q * tz - qz q * ty)
            (vy v + qw q * ty + qz q * tx - qx q * tz)
            (vz v + qw q * tz + qx q * ty - qy q * tx).

End THREE.
Import THREE.

(** ** The face table and [getDiceValue] *)

(** const UP = new THREE.Vector3(0, 1, 0) *)
Definition UP : Vector3 := mkVector3 0 1 0.

(** One entry of [faceMap]: { dir, value }. *)
Record FaceSpec : Set := mkFace { dir : Vector3; value : Z }.

Definition faceMap : list FaceSpec :=
  [ mkFace (mkVector3 0 1 0) 1       (* +Y *)
  ; mkFace (mkVector3 0 (-1) 0) 6    (* -Y *)
  ; mkFace (mkVector3 1 0 0) 4       (* +X *)
  ; mkFace (mkVector3 (-1) 0 0) 3    (* -X *)
  ; mkFace (mkVector3 0 0 1) 5       (* +Z *)
  ; mkFace (mkVector3 0 0 (-1)) 2    (* -Z *)
  ].

(** The score of one entry: f.dir.clone().applyQuaternion(worldQuat).dot(UP). *)
Definition score (worldQuat : Quaternion) (f : FaceSpec) : float :=
  dot (applyQuaternion (dir f) worldQuat) UP.

(** The loop state: (bestValue, bestScore). *)
Definition Best : Set := (Z * float)%type.

(** One iteration of the loop body; [score > bestScore] is [bestScore <? score]
    (false as soon as one side is NaN). *)
Definition visit (worldQuat : Quaternion) (best : Best) (f : FaceSpec) : Best :=
  let s := score worldQuat f in
  if snd best <? s then (value f, s) else best.

(** The loop over a table, from a given state. *)
Definition scan (worldQuat : Quaternion) (table : list FaceSpec) (best : Best) : Best :=
  fold_left (visit worldQuat) table best.

(** function getDiceValue(worldQuat): bestValue = 1, bestScore = -Infinity,
    then the loop over faceMap. *)
Definition getDiceValue (worldQuat : Quaternion) : Z :=
  fst (scan worldQuat faceMap (1%Z, neg_infinity)).

(** *** Canonical orientations (x, y, z, w) *)

Definition SQRT1_2 : float := 0.7071067811865476.

Definition q_identity : Quaternion := mkQuaternion 0 0 0 1.
Definition q_zero : Quaternion := mkQuaternion 0 0 0 0.
Definition q_nan : Quaternion := mkQuaternion nan 0 0 1.
(** Half a turn about X, and about Z: local -Y goes up. *)
Definition q_X180 : Quaternion := mkQuaternion 1 0 0 0.
Definition q_Z180 : Quaternion := mkQuaternion 0 0 1 0.
(** A quarter turn about Z: local +X goes up; the opposite turn: local -X. *)
Definition q_Z90 : Quaternion := mkQuaternion 0 0 SQRT1_2 SQRT1_2.
Definition q_Z270 : Quaternion := mkQuaternion 0 0 (- SQRT1_2) SQRT1_2.
(** A quarter turn about X: local -Z goes up; the opposite turn: local +Z. *)
Definition q_X90 : Quaternion := mkQuaternion SQRT1_2 0 0 SQRT1_2.
Definition q_X270 : Quaternion := mkQuaternion (- SQRT1_2) 0 0 SQRT1_2.
(** The same turns with the sine and cosine of the half angle as a
    floating-point sin and cos round them: the sine of a quarter of pi one
    unit in the last place below SQRT1_2, the cosine of half of pi
    6.1e-17 instead of 0. *)
Definition SIN_PI_4 : float := 0.7071067811865475.
Definition COS_PI_2 : float := 6.123233995736766e-17.
Definition q_X180_rounded : Quaternion := mkQuaternion 1 0 0 COS_PI_2.
Definition q_Z180_rounded : Quaternion := mkQuaternion 0 0 1 COS_PI_2.
Definition q_Z90_rounded : Quaternion := mkQuaternion 0 0 SIN_PI_4 SQRT1_2.
Definition q_Z270_rounded : Quaternion := mkQuaternion 0 0 (- SIN_PI_4) SQRT1_2.
Definition q_X90_rounded : Quaternion := mkQuaternion SIN_PI_4 0 0 SQRT1_2.
Definition q_X270_rounded : Quaternion := mkQuaternion (- SIN_PI_4) 0 0 SQRT1_2.


(** *** The first maximum, in the words of the specification

    "Select the entry with the maximum dot product, ties broken by table
    order": the first entry of the table whose score is at least the score of
    every entry.  Comparisons are the IEEE ones of the program. *)

Definition is_maximum (worldQuat : Quaternion) (table : list FaceSpec) (f : FaceSpec) : bool :=
  forallb (fun g => score worldQuat g <=? score worldQuat f) table.

Definition first_maximum (worldQuat : Quaternion) (table : list FaceSpec) : option FaceSpec :=
  find (is_maximum worldQuat table) table.

(** All six scores are numbers (none is NaN). *)
Definition scores_are_numbers (worldQuat : Quaternion) : bool :=
  forallb (fun f => negb (is_nan (score worldQuat f))) faceMap.

(** *** The same function over a store of objects

    [applyQuaternion] overwrites the vector it is called on; the program calls
    it on [f.dir.clone()].  To state that the table and the argument survive a
    call, the vectors and quaternions live in a store, the table holds
    references, [clone] allocates and [applyQuaternion] writes in place. *)

Module Store.

Definition ref : Set := nat.

Record t : Set := mk { vectors : list Vector3; quaternions : list Quaternion }.

Definition vec (s : t) (r : ref) : Vector3 := nth r (vectors s) (mkVector3 0 0 0).
Definition quat (s : t) (r : ref) : Quaternion := nth r (quaternions s) (mkQuaternion 0 0 0 1).

Fixpoint write {A : Type} (l : list A) (i : nat) (a : A) : list A :=
  match l, i with
  | [], _ => []
  | _ :: tl, O => a :: tl
  | h :: tl, S k => h :: write tl k a
  end.

(** v.clone(): a new object with the same components. *)
Definition clone (s : t) (r : ref) : t * ref :=
  (mk (vectors s ++ [vec s r]) (quaternions s), length (vectors s)).

(** v.applyQuaternion(q): reads q, overwrites v. *)
Definition applyQuaternion (s : t) (v q : ref) : t :=
  mk (write (vectors s) v (THREE.applyQuaternion (vec s v) (quat s q))) (quaternions s).

(** Every object of [s] is still in [s'], with the same contents. *)
Definition preserved (s s' : t) : Prop :=
  quaternions s' = quaternions s /\ exists tmp, vectors s' = vectors s ++ tmp.

End Store.

(** The module-level objects: the six [dir] vectors at addresses 0 to 5,
    [UP] at address 6. *)
Definition UP_ref : Store.ref := 6%nat.

Definition faceMap_refs : list (Store.ref * Z) :=
  [ (0%nat, 1%Z); (1%nat, 6%Z); (2%nat, 4%Z); (3%nat, 3%Z); (4%nat, 5%Z); (5%nat, 2%Z) ].

Definition module_vectors : list Vector3 := map dir faceMap ++ [UP].

(** A store in which the module-level objects have their initial contents. *)
Definition table_intact (s : Store.t) : Prop :=
  firstn 7 (Store.vectors s) = module_vectors.

Definition visit_store (worldQuat : Store.ref) (st : Best * Store.t) (f : Store.ref * Z)
  : Best * Store.t :=
  let '(best, s) := st in
  let '(s1, worldDir) := Store.clone s (fst f) in
  let s2 := Store.applyQuaternion s1 worldDir worldQuat in
  let sc := dot (Store.vec s2 worldDir) (Store.vec s2 UP_ref) in
  if snd best <? sc then ((snd f, sc), s2) else (best, s2).

Definition getDiceValue_store (s : Store.t) (worldQuat : Store.ref) : Z * Store.t :=
  let '(best, s') := fold_left (visit_store worldQuat) faceMap_refs ((1%Z, neg_infinity), s) in
  (fst best, s').

(** *** A call and its completion

    A JavaScript call either returns a value or throws.  [getDiceValue] has
    no [throw] and calls nothing that throws on a Quaternion argument. *)
Inductive Completion (A : Type) : Type :=
| Returns (a : A)
| Throws.
Arguments Returns {A} a.
Arguments Throws {A}.

Definition resolve (orientation : Quaternion) : Completion Z :=
  Returns (getDiceValue orientation).

(** The squared norm of a quaternion, x*x + y*y + z*z + w*w. *)
Definition lengthSq (q : Quaternion) : float :=
  qx q * qx q + qy q * qy q + qz q * qz q + qw q * qw q.

(** ** The Math object and the physics body, as the program sees them *)

(** [Math.hypot], [Math.cos] and [Math.sin] are implementation-approximated
    in ECMAScript: they are parameters of the model. *)
Record MathImpl : Set := mkMath
  { Math_hypot : float -> float -> float -> float
  ; Math_cos : float -> float
  ; Math_sin : float -> float }.

Definition Math_PI : float := 3.141592653589793.

(** type Vec3 = { x: number; y: number; z: number } *)
Record Vec3 : Set := mkVec3 { x : float; y : float; z : float }.

Definition spawns : list Vec3 :=
  [ mkVec3 (-1.2) 10 0 ; mkVec3 0.0 10 0 ; mkVec3 1.2 10 0 ].

(** What the body handle answers when it is read: linvel(), angvel() and
    rotation() (an object {x, y, z, w}).  The physics engine, which is not
    part of the program, changes these between two ticks. *)
Record RigidBody : Set := mkBody
  { linvel : Vec3 ; angvel : Vec3 ; rotation : Quaternion }.

(** The calls the program makes on the body handle, with their arguments. *)
Inductive BodyCall : Set :=
| setTranslation (v : Vec3) (wake : bool)
| setLinvel (v : Vec3) (wake : bool)
| setAngvel (v : Vec3) (wake : bool)
| setRotation (q : Quaternion) (wake : bool)
| wakeUp
| applyImpulse (v : Vec3) (wake : bool)
| applyTorqueImpulse (v : Vec3) (wake : bool).

(** [Quaternion.setFromEuler] of three.js for the default order 'XYZ'. *)
Definition setFromEuler (M : MathImpl) (ex ey ez : float) : Quaternion :=
  let c1 := Math_cos M (ex / 2) in
  let c2 := Math_cos M (ey / 2) in
  let c3 := Math_cos M (ez / 2) in
  let s1 := Math_sin M (ex / 2) in
  let s2 := Math_sin M (ey / 2) in
  let s3 := Math_sin M (ez / 2) in
  mkQuaternion (s1 * c2 * c3 + c1 * s2 * s3)
               (c1 * s2 * c3 - s1 * c2 * s3)
               (c1 * c2 * s3 + s1 * s2 * c3)
               (c1 * c2 * c3 - s1 * s2 * s3).

(** ** One die *)

(** The successive results of [Math.random()], from the next call on. *)
Definition Random : Set := nat -> float.

(** A result of [Math.random()]: a number r with 0 <= r < 1. *)
Definition in_unit_interval (r : float) : bool := (0 <=? r) && (r <? 1).

Definition impulseStrength : float := 3.5.
Definition upBoost : float := 2.0.
Definition torqueStrength : float := 10.0.

(** The quantities [roll] computes from its nine draws, in the order of the
    calls of [Math.random()]. *)
Definition euler_angle (random : Random) (k : nat) : float := random k * Math_PI * 2.
Definition roll_rotation (M : MathImpl) (random : Random) : Quaternion :=
  setFromEuler M (euler_angle random 0) (euler_angle random 1) (euler_angle random 2).
Definition roll_ix (random : Random) : float := (random 3%nat - 0.5) * impulseStrength.
Definition roll_iz (random : Random) : float := (random 4%nat - 0.5) * impulseStrength.
Definition roll_iy (random : Random) : float := upBoost + random 5%nat * 1.0.
Definition roll_tx (random : Random) : float := (random 6%nat - 0.5) * torqueStrength.
Definition roll_ty (random : Random) : float := (random 7%nat - 0.5) * torqueStrength.
Definition roll_tz (random : Random) : float := (random 8%nat - 0.5) * torqueStrength.

(** What a call of [roll] does: the new value of the state [rolling], the
    calls made on the body, in order, and the number of draws consumed. *)
Record RollResult : Set := mkRoll
  { roll_rolling : bool ; roll_calls : list BodyCall ; roll_draws : nat }.

(** const roll = () => { ... }.  [rb_current] is [rb.current], absent until
    the body is mounted. *)
Definition roll (M : MathImpl) (spawn : Vec3) (rb_current : option RigidBody)
    (rolling : bool) (random : Random) : RollResult :=
  match rb_current with
  | None => mkRoll rolling [] 0
  | Some _ =>
      mkRoll true
        [ setTranslation (mkVec3 (x spawn) (y spawn) (z spawn)) true
        ; setLinvel (mkVec3 0 0 0) true
        ; setAngvel (mkVec3 0 0 0) true
        ; setRotation (roll_rotation M random) true
        ; wakeUp
        ; applyImpulse (mkVec3 (roll_ix random) (roll_iy random) (roll_iz random)) true
        ; applyTorqueImpulse (mkVec3 (roll_tx random) (roll_ty random) (roll_tz random)) true ]
        9
  end.

(** The body is at rest: speed < 0.05 && spin < 0.05. *)
Definition at_rest (M : MathImpl) (body : RigidBody) : bool :=
  let lv := linvel body in
  let av := angvel body in
  let speed := Math_hypot M (x lv) (y lv) (z lv) in
  let spin := Math_hypot M (x av) (y av) (z av) in
  (speed <? 0.05) && (spin <? 0.05).

(** The callback given to [useFrame].  [rolling] is the constant of the
    render in which the callback was created: the state as it was when the
    component was last rendered.  The result is the value the state is left
    with by the call ([false], given to setRolling, when the die settles)
    and the argument of the call of [onSettled], if it is called. *)
Definition useFrame (M : MathImpl) (rolling : bool) (rb_current : option RigidBody)
  : bool * option Z :=
  if negb rolling then (rolling, None)
  else match rb_current with
       | None => (rolling, None)
       | Some body =>
           if at_rest M body
           then (false, Some (getDiceValue (rotation body)))
           else (rolling, None)
       end.

(** ** The App component: three dice and their aggregation *)

Definition N : nat := 3.

(** A cell of a JavaScript array of (number | null): a number, null, the
    value undefined, or an empty slot (a hole left by a write beyond the
    end). *)
Inductive Cell : Set :=
| number (v : Z)
| null
| undefined
| empty.

(** Array(n).fill(null) *)
Definition Array_fill_null (n : nat) : list Cell := repeat null n.

(** [...prev]: a copy; reading an empty slot gives undefined. *)
Definition spread (prev : list Cell) : list Cell :=
  map (fun c => match c with empty => undefined | _ => c end) prev.

(** next[i] = v.  In range the cell is replaced; beyond the end the array
    grows and the slots in between are empty. *)
Fixpoint array_set (next : list Cell) (i : nat) (v : Cell) : list Cell :=
  match next, i with
  | [], O => [v]
  | [], S k => empty :: array_set [] k v
  | _ :: tl, O => v :: tl
  | h :: tl, S k => h :: array_set tl k v
  end.

(** x != null (loose inequality: false on null and on undefined). *)
Definition not_null (c : Cell) : bool :=
  match c with number _ => true | _ => false end.

(** next.every((x) => x != null); [every] does not visit empty slots. *)
Definition every_not_null (next : list Cell) : bool :=
  forallb (fun c => match c with empty => true | _ => not_null c end) next.

(** vals.reduce((a, b) => a + b, 0), on an array that passed the test above
    (numbers and empty slots, which [reduce] does not visit either). *)
Definition sum_of (vals : list Cell) : Z :=
  fold_left (fun a c => match c with number b => (a + b)%Z | _ => a end) vals 0%Z.

(** What the modal shows: nothing yet (null), the empty string, or the
    congratulation for the values [vals]. *)
Inductive ModalContent : Set :=
| content_null
| content_empty_string
| content_congratulations (vals : list Cell).

(** The state of [App] that the program reads and writes. *)
Record App : Set := mkApp
  { pendingValues : list Cell
  ; finalValues : option (list Cell)
  ; modalOpen : bool
  ; modalContent : ModalContent }.

(** The state setters called from inside the updater of [onSettled]. *)
Inductive Setter : Set :=
| setFinalValues (vals : list Cell)
| setModalContent (c : ModalContent)
| setModalOpen (b : bool).

(** onSettled of the die of index [i], called with the value [v]:
    the new state and the setters called, in order. *)
Definition onSettled (i : nat) (v : Z) (a : App) : App * list Setter :=
  let next := array_set (spread (pendingValues a)) i (number v) in
  if every_not_null next then
    let vals := next in
    let sum := sum_of vals in
    if (sum =? 3)%Z then
      (mkApp next (Some next) true (content_congratulations vals),
       [ setFinalValues next
       ; setModalContent (content_congratulations vals)
       ; setModalOpen true ])
    else
      (mkApp next (Some next) (modalOpen a) (modalContent a), [ setFinalValues next ])
  else
    (mkApp next (finalValues a) (modalOpen a) (modalContent a), []).

(** One [Dice] component: its [spawn] prop; whether its handle is in
    [diceRefs.current] at its index; [rolling], the constant of its last
    render, which is what the callback given to useFrame reads; and
    [rolling_next], the state after the calls of setRolling made since that
    render, which is [rolling] from the next render on. *)
Record Die : Set := mkDie
  { spawn : Vec3 ; in_diceRefs : bool ; rolling : bool ; rolling_next : bool }.

Record World : Set := mkWorld { dice : list Die ; app : App }.

Definition initial_app : App := mkApp (Array_fill_null N) None false content_null.

(** The first render of [App]: diceRefs = useRef([]) holds no handle, and
    the canvas has not mounted its children yet. *)
Definition unmounted_world : World := mkWorld [] initial_app.

(** The commit that mounts the dice: spawns.map((spawn, i) => <Dice ... />).
    The state of each starts at false, and its ref callback,
    (h) => {diceRefs.current[i] = h}, stores its handle at its index. *)
Definition mount (w : World) : World :=
  mkWorld (map (fun s => mkDie s true false false) spawns) (app w).

(** The scene once the dice are mounted. *)
Definition initial_world : World := mount unmounted_world.

(** React renders the component again: the callbacks created by this render
    read the current state. *)
Definition render_die (d : Die) : Die :=
  mkDie (spawn d) (in_diceRefs d) (rolling_next d) (rolling_next d).

(** A tick, for one die: the callback given to useFrame runs with the
    constant of the last render; when it settles the die it calls
    setRolling(false), which changes the state and not that constant. *)
Definition poll_die (M : MathImpl) (d : Die) (rb_current : option RigidBody)
  : Die * option Z :=
  let '(value, settled) := useFrame M (rolling d) rb_current in
  (mkDie (spawn d) (in_diceRefs d) (rolling d)
         (match settled with Some _ => value | None => rolling_next d end),
   settled).

(** What happens to one die between two calls of [roll]: a tick, with what
    [rb.current] is at that tick, or a render of the component. *)
Inductive DieEvent : Set :=
| poll (rb_current : option RigidBody)
| rerender.

(** The die after the events, and the settle values emitted, in order. *)
Fixpoint polls (M : MathImpl) (d : Die) (events : list DieEvent) : Die * list Z :=
  match events with
  | [] => (d, [])
  | poll rb_current :: rest =>
      let '(d1, settled) := poll_die M d rb_current in
      let '(d2, more) := polls M d1 rest in
      (d2, match settled with Some v => v :: more | None => more end)
  | rerender :: rest => polls M (render_die d) rest
  end.

(** A render of the component after every tick. *)
Fixpoint rendered_each_poll (obs : list (option RigidBody)) : list DieEvent :=
  match obs with
  | [] => []
  | rb_current :: rest => poll rb_current :: rerender :: rendered_each_poll rest
  end.

(** diceRefs.current.forEach((d) => d?.roll()): the dice after the calls and,
    for each die, the calls its [roll] made on its body (none when the handle
    is null).  [bodies] gives [rb.current] of each die, in order; the draws
    are consumed in the order of the calls.  setRolling(true) changes the
    state of the die, not the constant of its last render. *)
Fixpoint roll_each (M : MathImpl) (ds : list Die) (bodies : list (option RigidBody))
    (random : Random) : list Die * list (list BodyCall) :=
  match ds with
  | [] => ([], [])
  | d :: ds' =>
      if in_diceRefs d then
        let r := roll M (spawn d) (hd None bodies) (rolling_next d) random in
        let '(ds'', calls) :=
          roll_each M ds' (tl bodies) (fun k => random (roll_draws r + k)%nat) in
        (mkDie (spawn d) true (rolling d) (roll_rolling r) :: ds'', roll_calls r :: calls)
      else
        let '(ds'', calls) := roll_each M ds' (tl bodies) random in
        (d :: ds'', [] :: calls)
  end.

(** const rollAll = () => { ... } *)
Definition rollAll (M : MathImpl) (bodies : list (option RigidBody)) (random : Random)
    (w : World) : World * list (list BodyCall) :=
  let a := mkApp (Array_fill_null N) None false content_empty_string in
  let '(ds, calls) := roll_each M (dice w) bodies random in
  (mkWorld ds a, calls).

(** One tick: the [useFrame] callback of each die in turn, from the die of
    index [i] on; a die that settles calls its [onSettled].  The updates of
    the state of [App] are applied in the order of the calls. *)
Fixpoint frame_from (M : MathImpl) (i : nat) (ds : list Die)
    (bodies : list (option RigidBody)) (a : App) : list Die * App * list Setter :=
  match ds with
  | [] => ([], a, [])
  | d :: ds' =>
      let '(d', settled) := poll_die M d (hd None bodies) in
      let '(a1, log1) :=
        match settled with
        | Some v => onSettled i v a
        | None => (a, [])
        end in
      let '(ds'', a2, log2) := frame_from M (S i) ds' (tl bodies) a1 in
      (d' :: ds'', a2, log1 ++ log2)
  end.

Definition frame (M : MathImpl) (bodies : list (option RigidBody)) (w : World)
  : World * list Setter :=
  let '(ds, a, log) := frame_from M 0 (dice w) bodies (app w) in
  (mkWorld ds a, log).

(** React renders the dice again. *)
Definition render_all (w : World) : World :=
  mkWorld (map render_die (dice w)) (app w).

(** What happens between two clicks: a tick of the frame loop, with the
    bodies as they are at that tick, or a render of the dice.  Nothing in
    the program orders the two: a render is scheduled by a call of
    setRolling and comes when React runs it. *)
Inductive Beat : Set :=
| tick (bodies : list (option RigidBody))
| render.

Fixpoint frames (M : MathImpl) (beats : list Beat) (w : World) : World * list Setter :=
  match beats with
  | [] => (w, [])
  | tick bodies :: rest =>
      let '(w1, log1) := frame M bodies w in
      let '(w2, log2) := frames M rest w1 in
      (w2, log1 ++ log2)
  | render :: rest => frames M rest (render_all w)
  end.

(** A render after every tick. *)
Fixpoint rendered_each_tick (ticks : list (list (option RigidBody))) : list Beat :=
  match ticks with
  | [] => []
  | bodies :: rest => tick bodies :: render :: rendered_each_tick rest
  end.

(** The completion events of a log: the calls of [setFinalValues]. *)
Definition completions (log : list Setter) : nat :=
  length (filter (fun s => match s with setFinalValues _ => true | _ => false end) log).

(** Reports of settled dice, taken in order: (index, value). *)
Definition record_all (reports : list (nat * Z)) (a : App) : App :=
  fold_left (fun a r => fst (onSettled (fst r) (snd r) a)) reports a.

(** A stand-in for [Math], to run the definitions on examples: [hypot] by
    the textbook formula, [cos] and [sin] by their first Taylor terms. *)
Definition sample_Math : MathImpl :=
  mkMath (fun a b c => sqrt (a * a + b * b + c * c))
         (fun t => 1 - t * t / 2)
         (fun t => t - t * t * t / 6).

(** The local direction each canonical orientation places at world-up. *)
Definition canonical_orientations : list (Quaternion * Vector3) :=
  [ (q_identity, mkVector3 0 1 0)
  ; (q_X180, mkVector3 0 (-1) 0)
  ; (q_Z180, mkVector3 0 (-1) 0)
  ; (q_Z90, mkVector3 1 0 0)
  ; (q_Z270, mkVector3 (-1) 0 0)
  ; (q_X270, mkVector3 0 0 1)
  ; (q_X90, mkVector3 0 0 (-1))
  ; (q_X180_rounded, mkVector3 0 (-1) 0)
  ; (q_Z180_rounded, mkVector3 0 (-1) 0)
  ; (q_Z90_rounded, mkVector3 1 0 0)
  ; (q_Z270_rounded, mkVector3 (-1) 0 0)
  ; (q_X270_rounded, mkVector3 0 0 1)
  ; (q_X90_rounded, mkVector3 0 0 (-1)) ].

Definition same_direction (a b : Vector3) : bool :=
  (vx a =? vx b) && (vy a =? vy b) && (vz a =? vz b).

(** The value the table configures for a local direction. *)
Definition configured (d : Vector3) : option Z :=
  option_map value (find (fun f => same_direction (dir f) d) faceMap).

(** The face resolved at a canonical orientation is the configured one. *)
Definition resolves_configured (c : Quaternion * Vector3) : bool :=
  match configured (snd c) with
  | Some v => (getDiceValue (fst c) =? v)%Z
  | None => false
  end.

(** The dice of the rendered scene: one per entry of [spawns], in order,
    each with its handle registered. *)
Definition mounted (ds : list Die) : Prop :=
  map spawn ds = spawns /\ forallb in_diceRefs ds = true.

(** A die that is idle and stays so at the next render. *)
Definition idle (d : Die) : bool := negb (rolling d) && negb (rolling_next d).

Definition all_idle (ds : list Die) : Prop := forallb idle ds = true.

(** A body at rest with the rotation [q], and a scene of three such. *)
Definition resting (q : Quaternion) : option RigidBody :=
  Some (mkBody (mkVec3 0 0 0) (mkVec3 0 0 0) q).
Definition tumbling (q : Quaternion) : option RigidBody :=
  Some (mkBody (mkVec3 0 (-3) 0) (mkVec3 1 0 2) q).

(** Case analysis on the comparisons of the binary64 specification. *)
Ltac sf_cases :=
  repeat match goal with
         | s : bool |- _ => destruct s
         end;
  simpl; try discriminate; try reflexivity;
  repeat match goal with
         | |- context [Z.compare ?a ?b] =>
             destruct (Z.compare_spec a b); simpl;
             try discriminate; try reflexivity; try lia
         | H : context [Z.compare ?a ?b] |- _ =>
             destruct (Z.compare_spec a b); simpl in *;
             try discriminate; try reflexivity; try lia
         | |- context [Pos.compare_cont Eq ?a ?b] =>
             change (Pos.compare_cont Eq a b) with (Pos.compare a b);
             destruct (Pos.compare_spec a b); simpl;
             try discriminate; try reflexivity; try lia
         | H : context [Pos.compare_cont Eq ?a ?b] |- _ =>
             change (Pos.compare_cont Eq a b) with (Pos.compare a b) in H;
             destruct (Pos.compare_spec a b); simpl in *;
             try discriminate; try reflexivity; try lia
         end.

(** ** Bounds on rounded results

    The binary64 operations are specified by [SpecFloat]: the exact result
    is shifted to the exponent of the format and rounded to nearest.  The
    definitions below state what the shift keeps, and bounds on a result. *)

Module Binary64.

#[local] Open Scope Z_scope.

(** The state of the right shift of [m] by [k] bits: the quotient, and the
    round and sticky bits, which tell where the remainder lies. *)
Definition shr_inv (m k : Z) (x : shr_record) : Prop :=
  0 <= shr_m x
  /\ exists t, 0 <= t < 2 ^ k
       /\ 2 * (m - shr_m x * 2 ^ k) = (if shr_r x then 2 ^ k else 0) + t
       /\ (shr_s x = false <-> t = 0).

(** The magnitude of [F] is at most mB * 2^eB. *)
Definition bounded_by (mB eB : Z) (F : spec_float) : Prop :=
  match F with
  | S754_zero _ => True
  | S754_finite _ m e => e <= eB /\ Zpos m <= mB * 2 ^ (eB - e)
  | _ => False
  end.

Definition has_sign (s : bool) (F : spec_float) : Prop :=
  match F with
  | S754_zero s' | S754_finite s' _ _ | S754_infinity s' => s' = s
  | S754_nan => False
  end.

(** The sign of [F], for the order, is not negative. *)
Definition nonneg (F : spec_float) : Prop :=
  match F with
  | S754_zero _ | S754_finite false _ _ | S754_infinity false => True
  | _ => False
  end.

(** A number r with 0 <= r < 1: a zero, or m * 2^e with e <= -53, m < 2^53. *)
Definition unit_like (F : spec_float) : Prop :=
  match F with
  | S754_zero _ => True
  | S754_finite false m e => e <= -53 /\ Zpos m < 2 ^ 53
  | _ => False
  end.

(** The last step of [binary_round_aux]: the second normalisation and the
    overflow test. *)
Definition finish (s : bool) (M g : Z) : spec_float :=
  let '(mrs, e'') := shr_fexp prec emax M g loc_Exact in
  match shr_m mrs with
  | Z0 => S754_zero s
  | Zpos m => if e'' <=? emax - prec then S754_finite s m e'' else S754_infinity s
  | Zneg _ => S754_nan
  end.

End Binary64.

(** lo <= v && v <= hi, with the comparisons of the program's numbers. *)
Definition between (lo hi v : float) : bool := (lo <=? v) && (v <=? hi).

Definition is_applyImpulse (c : BodyCall) : bool :=
  match c with applyImpulse _ _ => true | _ => false end.
Definition is_applyTorqueImpulse (c : BodyCall) : bool :=
  match c with applyTorqueImpulse _ _ => true | _ => false end.

(** Closed comparisons of integers, by computation. *)
Ltac closed_Z :=
  repeat split;
  first [ apply Z.ltb_lt; vm_compute; reflexivity
        | apply Z.leb_le; vm_compute; reflexivity ].

(** ** The rest of the interface of App *)

(** The button of the modal: onClick={() => setModalOpen(false)}. *)
Definition closeModal (a : App) : App :=
  mkApp (pendingValues a) (finalValues a) false (modalContent a).

(** What the user, the frame loop and React do: a click on the roll button,
    a tick, a render of the dice, a click on the button of the modal. *)
Inductive UIEvent : Set :=
| ui_click (bodies : list (option RigidBody)) (random : Random)
| ui_tick (bodies : list (option RigidBody))
| ui_render
| ui_close.

(** The button of the modal is rendered only while [modalOpen] holds; a
    [ui_close] in another state changes nothing. *)
Definition ui_step (M : MathImpl) (w : World) (e : UIEvent) : World :=
  match e with
  | ui_click bodies random => fst (rollAll M bodies random w)
  | ui_tick bodies => fst (frame M bodies w)
  | ui_render => render_all w
  | ui_close => mkWorld (dice w) (closeModal (app w))
  end.

(** The states of the mounted scene. *)
Definition ui_run (M : MathImpl) (events : list UIEvent) : World :=
  fold_left (ui_step M) events initial_world.

(** String(n) for an integer n: its decimal writing. *)
Definition Number_toString (n : Z) : String.string :=
  DecimalString.NilZero.string_of_int (Z.to_int n).

(** What [join] writes for an element: nothing for null, undefined and
    empty slots. *)
Definition cell_toString (c : Cell) : String.string :=
  match c with
  | number v => Number_toString v
  | _ => ""%string
  end.

(** vals.join(sep) *)
Fixpoint join (sep : String.string) (vals : list Cell) : String.string :=
  match vals with
  | [] => ""%string
  | [c] => cell_toString c
  | c :: rest => String.append (cell_toString c) (String.append sep (join sep rest))
  end.

(** The two texts of the panel:
    finalValues ? finalValues.join(", ") : "-"   and
    finalValues ? finalValues.reduce((a, b) => a + b, 0) : "-". *)
Definition result_text (a : App) : String.string :=
  match finalValues a with
  | Some vals => join ", "%string vals
  | None => "-"%string
  end.

Definition total_text (a : App) : String.string :=
  match finalValues a with
  | Some vals => Number_toString (sum_of vals)
  | None => "-"%string
  end.

(** *** What a die reports over a sequence of ticks *)

(** The first observation of the body at which it is present and at rest. *)
Fixpoint first_at_rest (M : MathImpl) (obs : list (option RigidBody)) : option RigidBody :=
  match obs with
  | [] => None
  | Some body :: rest => if at_rest M body then Some body else first_at_rest M rest
  | None :: rest => first_at_rest M rest
  end.


(** The faces shown at the observations at which the body is present and
    at rest, in order. *)
Definition faces_at_rest (M : MathImpl) (obs : list (option RigidBody)) : list Z :=
  flat_map (fun rb_current =>
              match rb_current with
              | Some body => if at_rest M body then [getDiceValue (rotation body)] else []
              | None => []
              end) obs.





(** The draws from the [n]-th on. *)
Definition draws_from (n : nat) (random : Random) : Random :=
  fun k => random (n + k)%nat.

(** *** The state of a roll cycle, die by die

    [None]: the die is rolling and has not reported; [Some v]: it has
    settled on [v]. *)
Definition Status : Set := option Z.

Definition slot (st : Status) : Cell :=
  match st with Some v => number v | None => null end.

Definition is_rolling (st : Status) : bool :=
  match st with Some _ => false | None => true end.


(** The world of three dice in the states [s0], [s1], [s2], each die
    rendered with its current state: dice, slots, finalValues and
    modalOpen. *)
Definition in_cycle (s0 s1 s2 : Status) (w : World) : Prop :=
  map rolling (dice w) = [is_rolling s0; is_rolling s1; is_rolling s2]
  /\ map rolling_next (dice w) = [is_rolling s0; is_rolling s1; is_rolling s2]
  /\ map in_diceRefs (dice w) = [true; true; true]
  /\ pendingValues (app w) = [slot s0; slot s1; slot s2]
  /\ finalValues (app w)
     = match s0, s1, s2 with
       | Some a, Some b, Some c => Some [number a; number b; number c]
       | _, _, _ => None
       end
  /\ modalOpen (app w)
     = match s0, s1, s2 with
       | Some a, Some b, Some c => (a + b + c =? 3)%Z
       | _, _, _ => false
       end.


(** A face value in a slot, or no value yet. *)
Definition cell_ok (c : Cell) : Prop :=
  c = null \/ exists v, c = number v /\ (1 <= v <= 6)%Z.

(** What every state of the scene satisfies, whatever the order of the
    ticks and of the renders. *)
Definition scene_ok (a : App) : Prop :=
  length (pendingValues a) = N
  /\ Forall cell_ok (pendingValues a)
  /\ (finalValues a = None
      \/ (finalValues a = Some (pendingValues a)
          /\ every_not_null (pendingValues a) = true))
  /\ (modalOpen a = true ->
      finalValues a <> None
      /\ modalContent a = content_congratulations [number 1; number 1; number 1]).

(** *** Numbers up to the sign of zero

    +0 and -0 are different binary64 values that every comparison of the
    program takes for equal. *)

(** The same number: the same value, or two zeros. *)
Definition same_number (a b : spec_float) : Prop :=
  match a, b with
  | S754_zero _, S754_zero _ => True
  | _, _ => a = b
  end.

(** [a], or its opposite. *)
Definition flip (s : bool) (a : spec_float) : spec_float :=
  if s then SFopp a else a.

(** [x] is [y] (s = false) or the opposite of [y] (s = true), up to the
    sign of zero. *)
Definition rel (s : bool) (x y : float) : Prop :=
  same_number (Prim2SF x) (flip s (Prim2SF y)).

(* ================================================================== *)
(** * Properties *)
(* ================================================================== *)

(** ** The face resolver stays within the table *)

Lemma scan_value_from q table best :
  fst (scan q table best) = fst best \/ In (fst (scan q table best)) (map value table).
Proof.
  revert best; induction table as [|f table IH]; intros best; [now left|].
  cbn [scan fold_left map]. fold (scan q table (visit q best f)).
  destruct (IH (visit q best f)) as [E|E].
  - rewrite E. unfold visit. destruct (snd best <? score q f).
    + right; now left.
    + now left.
  - right. now right.
Qed.

Lemma scan_no_improvement q table best :
  forallb (fun f => negb (snd best <? score q f)) table = true ->
  scan q table best = best.
Proof.
  induction table as [|f table IH]; [reflexivity|].
  cbn [forallb scan fold_left]. intros H. apply andb_prop in H as [Hf Ht].
  unfold visit at 2. apply negb_true_iff in Hf. rewrite Hf. exact (IH Ht).
Qed.

(** C1: at each of the canonical axis-aligned orientations (the identity,
    the half turns about X and Z, the quarter turns about Z and X in both
    senses) [getDiceValue] returns the value the face table configures for
    the local direction placed at world-up: +Y 1, -Y 6, +X 4, -X 3, +Z 5,
    -Z 2; in particular the identity quaternion resolves to 1. *)
Theorem C1_canonical_orientations :
  forallb resolves_configured canonical_orientations = true
  /\ getDiceValue q_identity = 1%Z
  /\ getDiceValue q_X180 = 6%Z /\ getDiceValue q_Z180 = 6%Z
  /\ getDiceValue q_Z90 = 4%Z /\ getDiceValue q_Z270 = 3%Z
  /\ getDiceValue q_X270 = 5%Z /\ getDiceValue q_X90 = 2%Z.
Proof. repeat split; vm_compute; reflexivity. Qed.

(** C10: [getDiceValue] is total and its result is a value of the table,
    an integer from 1 to 6, whatever the quaternion (unit or not, zero, with
    NaN components): it is the initial bestValue 1 when no score exceeds
    -Infinity and a value of [faceMap] otherwise; the zero quaternion and a
    quaternion with a NaN component both give 1. *)
Theorem C10_getDiceValue_total_in_range (q : Quaternion) :
  In (getDiceValue q) (map value faceMap)
  /\ (1 <= getDiceValue q <= 6)%Z
  /\ (exists v, resolve q = Returns v)
  /\ (forallb (fun f => negb (neg_infinity <? score q f)) faceMap = true ->
      getDiceValue q = 1%Z)
  /\ getDiceValue q_zero = 1%Z
  /\ getDiceValue q_nan = 1%Z.
Proof.
  assert (Hin : In (getDiceValue q) (map value faceMap)).
  { unfold getDiceValue.
    destruct (scan_value_from q faceMap (1%Z, neg_infinity)) as [E|E].
    - rewrite E. now left.
    - exact E. }
  split; [exact Hin|]. split.
  - cbn in Hin. lia.
  - split; [now exists (getDiceValue q)|]. split.
    + intros H. unfold getDiceValue.
      now rewrite (scan_no_improvement q faceMap (1%Z, neg_infinity) H).
    + split; vm_compute; reflexivity.
Qed.

(** C3 as written fails: the zero quaternion, of squared norm 0, is not
    rejected; the call returns the face value 1. *)
Lemma C3_zero_quaternion_is_resolved :
  lengthSq q_zero = 0 /\ resolve q_zero = Returns 1%Z /\ resolve q_zero <> Throws.
Proof. repeat split; discriminate. Qed.

(** C3, amended: [getDiceValue] does not look at the norm of its argument:
    for every quaternion, unit or not, the call returns a value of the face
    table and never throws. *)
Theorem C3_no_rejection (q : Quaternion) :
  resolve q <> Throws
  /\ exists v, resolve q = Returns v /\ In v (map value faceMap).
Proof.
  split; [discriminate|]. exists (getDiceValue q). split; [reflexivity|].
  unfold getDiceValue.
  destruct (scan_value_from q faceMap (1%Z, neg_infinity)) as [E|E].
  - rewrite E. now left.
  - exact E.
Qed.

(** ** The settle poll of one die *)

(** C4: a poll of a rolling die whose body handle is present signals a
    settle (it resolves the current rotation, passes the value to onSettled
    and leaves the Rolling phase) exactly when the linear speed and the
    angular speed, the hypot of the components, are both strictly below
    0.05; otherwise nothing is emitted and the die remains rolling.  With no
    body handle the tick is skipped and nothing is emitted. *)
Theorem C4_settle_iff_both_below_threshold (M : MathImpl) (body : RigidBody) :
  let speed := Math_hypot M (x (linvel body)) (y (linvel body)) (z (linvel body)) in
  let spin := Math_hypot M (x (angvel body)) (y (angvel body)) (z (angvel body)) in
  useFrame M true (Some body)
    = (if (speed <? 0.05) && (spin <? 0.05)
       then (false, Some (getDiceValue (rotation body)))
       else (true, None))
  /\ (snd (useFrame M true (Some body)) <> None
      <-> (speed <? 0.05) = true /\ (spin <? 0.05) = true)
  /\ (fst (useFrame M true (Some body)) = false
      <-> (speed <? 0.05) = true /\ (spin <? 0.05) = true)
  /\ useFrame M true None = (true, None).
Proof.
  cbv zeta. unfold useFrame, at_rest. cbn [negb].
  destruct (Math_hypot M (x (linvel body)) (y (linvel body)) (z (linvel body)) <? 0.05);
    destruct (Math_hypot M (x (angvel body)) (y (angvel body)) (z (angvel body)) <? 0.05);
    cbn; repeat split; try discriminate; try tauto; intros [? ?]; discriminate.
Qed.

Lemma poll_die_idle M d rb_current :
  rolling d = false -> poll_die M d rb_current = (d, None).
Proof. destruct d as [s h r n]. cbn. intros ->. reflexivity. Qed.

Lemma poll_die_rolling M d rb_current :
  rolling d = true ->
  poll_die M d rb_current
  = match rb_current with
    | Some body =>
        if at_rest M body
        then (mkDie (spawn d) (in_diceRefs d) true false,
              Some (getDiceValue (rotation body)))
        else (d, None)
    | None => (d, None)
    end.
Proof.
  destruct d as [s h r n]. cbn. intros ->. unfold poll_die, useFrame. cbn.
  destruct rb_current as [body|]; [|reflexivity].
  destruct (at_rest M body); reflexivity.
Qed.

(** C5: the code does not keep the claim.  The callback given to useFrame
    reads the constant [rolling] of the last render, and setRolling(false)
    changes the state, not that constant: a die that has settled is polled
    as a rolling die until React renders the component again.  While its
    body is at rest, a second tick before that render settles it again, and
    onSettled is called twice in one roll cycle.  With a render between the
    two ticks there is one settle; a die rendered with rolling = false is
    not polled. *)
Theorem C5_settles_again_before_render (M : MathImpl) (d : Die) (body : RigidBody) :
  rolling d = true ->
  at_rest M body = true ->
  let v := getDiceValue (rotation body) in
  snd (polls M d [poll (Some body); poll (Some body)]) = [v; v]
  /\ snd (polls M d [poll (Some body); rerender; poll (Some body)]) = [v]
  /\ rolling (fst (poll_die M d (Some body))) = true
  /\ rolling_next (fst (poll_die M d (Some body))) = false
  /\ (forall d' rb_current, rolling d' = false -> poll_die M d' rb_current = (d', None)).
Proof.
  intros Hd Hb. cbv zeta. cbn [polls].
  rewrite (poll_die_rolling M d (Some body) Hd), Hb.
  rewrite (poll_die_rolling M (mkDie (spawn d) (in_diceRefs d) true false)
             (Some body) eq_refl), Hb.
  rewrite (poll_die_idle M (render_die (mkDie (spawn d) (in_diceRefs d) true false))
             (Some body) eq_refl).
  repeat split. intros d' rb H. now apply poll_die_idle.
Qed.

(** C5 on a die thrown and rendered, whose body lies still on the face 1. *)
Lemma C5_witness :
  snd (polls sample_Math (mkDie (mkVec3 0 10 0) true true true)
         [ poll (Some (mkBody (mkVec3 0 0 0) (mkVec3 0 0 0) q_identity))
         ; poll (Some (mkBody (mkVec3 0 0 0) (mkVec3 0 0 0) q_identity)) ])
  = [1%Z; 1%Z].
Proof.
  exact (proj1 (C5_settles_again_before_render sample_Math
                  (mkDie (mkVec3 0 10 0) true true true)
                  (mkBody (mkVec3 0 0 0) (mkVec3 0 0 0) q_identity) eq_refl eq_refl)).
Defined.

(** ** Arrays of cells *)

Lemma spread_length l : length (spread l) = length l.
Proof. apply length_map. Qed.

Lemma array_set_length l i v :
  (i < length l)%nat -> length (array_set l i v) = length l.
Proof.
  revert i; induction l as [|h l IH]; intros [|i] H; cbn in *; try lia.
  now rewrite IH by lia.
Qed.

Lemma array_set_nth_other l i j v d :
  (i < length l)%nat -> i <> j -> nth j (array_set l i v) d = nth j l d.
Proof.
  revert i j; induction l as [|h l IH]; intros [|i] [|j] H Hij; cbn in *;
    try lia; try reflexivity.
  apply IH; lia.
Qed.

Lemma array_set_nth_same l i v d :
  (i < length l)%nat -> nth i (array_set l i v) d = v.
Proof.
  revert i; induction l as [|h l IH]; intros [|i] H; cbn in *; try lia;
    try reflexivity.
  apply IH; lia.
Qed.

Lemma spread_nth_null l j :
  nth j l empty = null -> nth j (spread l) empty = null.
Proof.
  revert j; induction l as [|h l IH]; intros [|j] H; cbn in *;
    try discriminate.
  - now rewrite H.
  - now apply IH.
Qed.

Lemma every_not_null_nth l j :
  nth j l empty = null -> every_not_null l = false.
Proof.
  unfold every_not_null.
  revert j; induction l as [|h l IH]; intros [|j] H; cbn in *;
    try discriminate.
  - now rewrite H.
  - rewrite (IH _ H). apply andb_false_r.
Qed.

Lemma every_not_null_no_null l :
  every_not_null l = true -> ~ In null l /\ ~ In undefined l.
Proof.
  unfold every_not_null.
  induction l as [|h l IH]; cbn; [tauto|].
  intros H. apply andb_prop in H as [Hh Hl]. destruct (IH Hl) as [H1 H2].
  split; intros [E|E]; subst; try discriminate; tauto.
Qed.

(** ** What one report does *)

Lemma onSettled_pending i v a :
  pendingValues (fst (onSettled i v a))
  = array_set (spread (pendingValues a)) i (number v).
Proof.
  unfold onSettled.
  destruct (every_not_null _); [destruct (_ =? 3)%Z|]; reflexivity.
Qed.

Lemma onSettled_incomplete i v a :
  every_not_null (array_set (spread (pendingValues a)) i (number v)) = false ->
  onSettled i v a
  = (mkApp (array_set (spread (pendingValues a)) i (number v))
           (finalValues a) (modalOpen a) (modalContent a), []).
Proof. unfold onSettled. now intros ->. Qed.

Lemma onSettled_complete i v a :
  every_not_null (array_set (spread (pendingValues a)) i (number v)) = true ->
  let next := array_set (spread (pendingValues a)) i (number v) in
  finalValues (fst (onSettled i v a)) = Some next
  /\ snd (onSettled i v a)
     = setFinalValues next ::
       (if (sum_of next =? 3)%Z
        then [setModalContent (content_congratulations next); setModalOpen true]
        else [])
  /\ modalOpen (fst (onSettled i v a))
     = (if (sum_of next =? 3)%Z then true else modalOpen a).
Proof.
  cbv zeta. unfold onSettled. intros ->.
  destruct (_ =? 3)%Z; repeat split.
Qed.

Lemma record_all_missing_die (reports : list (nat * Z)) (j : nat) (a : App) :
  (j < N)%nat ->
  (forall r, In r reports -> (fst r < N)%nat /\ fst r <> j) ->
  length (pendingValues a) = N ->
  nth j (pendingValues a) empty = null ->
  finalValues (record_all reports a) = finalValues a
  /\ nth j (pendingValues (record_all reports a)) empty = null.
Proof.
  intros Hj. revert a. induction reports as [|[i v] reports IH];
    intros a Hr Hlen Hnull; [now split|].
  destruct (Hr (i, v) (or_introl eq_refl)) as [Hi Hij]. cbn [fst] in Hi, Hij.
  assert (Hnext : nth j (array_set (spread (pendingValues a)) i (number v)) empty = null).
  { rewrite array_set_nth_other; [now apply spread_nth_null| |exact Hij].
    rewrite spread_length. lia. }
  pose proof (onSettled_incomplete i v a (every_not_null_nth _ _ Hnext)) as E.
  unfold record_all. cbn [fold_left fst snd]. rewrite E. cbn [fst].
  fold (record_all reports
          (mkApp (array_set (spread (pendingValues a)) i (number v))
                 (finalValues a) (modalOpen a) (modalContent a))).
  apply (IH (mkApp (array_set (spread (pendingValues a)) i (number v))
                   (finalValues a) (modalOpen a) (modalContent a))).
  - intros r Hin. apply Hr. now right.
  - cbn. rewrite array_set_length; rewrite spread_length; lia.
  - exact Hnext.
Qed.

(** C7: within a roll cycle [onSettled] leaves finalValues null as long as
    an entry of pendingValues is null: after [rollAll], reports from dice
    that leave out some die (for instance dice 0 and 1 of the three) leave
    finalValues null; and a report after which every entry is non-null sets
    finalValues to the new pendingValues, in die order, and evaluates the
    completion predicate (the sum is 3) on it.  With the reports 2, 5, 6 of
    dice 0, 1, 2 finalValues is [2, 5, 6]. *)
Theorem C7_final_values_only_when_all_reported
    (M : MathImpl) (bodies : list (option RigidBody)) (random : Random) (w : World)
    (reports : list (nat * Z)) (j : nat) :
  (j < N)%nat ->
  (forall r, In r reports -> (fst r < N)%nat /\ fst r <> j) ->
  let a0 := app (fst (rollAll M bodies random w)) in
  finalValues (record_all reports a0) = None
  /\ (forall a i v,
        In null (pendingValues (fst (onSettled i v a))) ->
        finalValues (fst (onSettled i v a)) = finalValues a
        /\ snd (onSettled i v a) = [])
  /\ (forall a i v,
        let next := pendingValues (fst (onSettled i v a)) in
        every_not_null next = true ->
        finalValues (fst (onSettled i v a)) = Some next
        /\ snd (onSettled i v a)
           = setFinalValues next ::
             (if (sum_of next =? 3)%Z
              then [setModalContent (content_congratulations next); setModalOpen true]
              else []))
  /\ finalValues (record_all [(0%nat, 2%Z); (1%nat, 5%Z)] a0) = None
  /\ finalValues (record_all [(0%nat, 2%Z); (1%nat, 5%Z); (2%nat, 6%Z)] a0)
     = Some [number 2; number 5; number 6].
Proof.
  intros Hj Hr a0.
  assert (Ha0 : a0 = mkApp [null; null; null] None false content_empty_string).
  { unfold a0, rollAll. destruct (roll_each M (dice w) bodies random). reflexivity. }
  clearbody a0. subst a0. split.
  - apply (record_all_missing_die reports j
             (mkApp [null; null; null] None false content_empty_string) Hj Hr eq_refl).
    cbn. unfold N in Hj.
    destruct j as [|[|[|j]]]; try reflexivity; lia.
  - split; [|split; [|split; reflexivity]].
    + intros a i v Hin. rewrite onSettled_pending in Hin.
      destruct (every_not_null (array_set (spread (pendingValues a)) i (number v))) eqn:E.
      * destruct (every_not_null_no_null _ E) as [H _]. contradiction.
      * rewrite (onSettled_incomplete i v a E). now split.
    + intros a i v next. unfold next. rewrite onSettled_pending. intros E.
      destruct (onSettled_complete i v a E) as (H1 & H2 & _). now split.
Qed.

(** A run of C7: dice 0 and 1 have reported, die 2 has not. *)
Lemma C7_witness :
  let a0 := app (fst (rollAll sample_Math [] (fun _ => 0) initial_world)) in
  finalValues (record_all [(0%nat, 2%Z); (1%nat, 5%Z)] a0) = None.
Proof.
  refine (proj1 (C7_final_values_only_when_all_reported sample_Math []
                   (fun _ => 0) initial_world [(0%nat, 2%Z); (1%nat, 5%Z)] 2 _ _)).
  - unfold N; lia.
  - intros r [E|[E|[]]]; subst r; cbn; unfold N; lia.
Defined.

(** ** rollAll *)

Lemma roll_each_nth M ds : forall bodies random i d,
  nth_error ds i = Some d -> in_diceRefs d = true ->
  exists k random',
    (forall n, random' n = random (k + n)%nat)
    /\ let r := roll M (spawn d) (nth i bodies None) (rolling_next d) random' in
       nth_error (snd (roll_each M ds bodies random)) i = Some (roll_calls r)
       /\ nth_error (fst (roll_each M ds bodies random)) i
          = Some (mkDie (spawn d) true (rolling d) (roll_rolling r)).
Proof.
  induction ds as [|d0 ds IH]; intros bodies random i d Hnth Hreg.
  - destruct i; discriminate.
  - destruct i as [|i]; cbn [nth_error] in Hnth.
    + injection Hnth as ->. exists 0%nat, random. split; [reflexivity|].
      cbn [roll_each]. rewrite Hreg.
      destruct (roll_each M ds (tl bodies) _) as [ds'' calls].
      cbn. destruct bodies; split; reflexivity.
    + assert (Hb : nth i (tl bodies) None = nth (S i) bodies None)
        by (destruct bodies; [destruct i|]; reflexivity).
      cbn [roll_each]. destruct (in_diceRefs d0).
      * destruct (IH (tl bodies)
                    (fun k => random (roll_draws (roll M (spawn d0) (hd None bodies)
                                                    (rolling_next d0) random) + k)%nat)
                    i d Hnth Hreg) as (k & random' & Hk & H).
        exists (roll_draws (roll M (spawn d0) (hd None bodies) (rolling_next d0) random) + k)%nat,
               random'.
        split.
        -- intros n. rewrite Hk. f_equal. lia.
        -- destruct (roll_each M ds (tl bodies) _) as [ds'' calls].
           rewrite Hb in H. exact H.
      * destruct (IH (tl bodies) random i d Hnth Hreg) as (k & random' & Hk & H).
        exists k, random'. split; [exact Hk|].
        destruct (roll_each M ds (tl bodies) random) as [ds'' calls].
        rewrite Hb in H. exact H.
Qed.

Lemma roll_each_mounted M ds : forall bodies random,
  map spawn (fst (roll_each M ds bodies random)) = map spawn ds
  /\ forallb in_diceRefs (fst (roll_each M ds bodies random)) = forallb in_diceRefs ds.
Proof.
  induction ds as [|d ds IH]; intros bodies random; [now split|].
  cbn [roll_each]. destruct (in_diceRefs d) eqn:E.
  - destruct (IH (tl bodies)
                (fun k => random (roll_draws (roll M (spawn d) (hd None bodies)
                                                (rolling_next d) random) + k)%nat)) as [H1 H2].
    destruct (roll_each M ds (tl bodies) _) as [ds'' calls]. cbn in *.
    now rewrite H1, H2, E.
  - destruct (IH (tl bodies) random) as [H1 H2].
    destruct (roll_each M ds (tl bodies) random) as [ds'' calls]. cbn in *.
    now rewrite H1, H2, E.
Qed.

Lemma frame_from_mounted M ds : forall i bodies a,
  map spawn (fst (fst (frame_from M i ds bodies a))) = map spawn ds
  /\ forallb in_diceRefs (fst (fst (frame_from M i ds bodies a))) = forallb in_diceRefs ds.
Proof.
  induction ds as [|d ds IH]; intros i bodies a; [now split|].
  cbn [frame_from]. unfold poll_die.
  destruct (useFrame M (rolling d) (hd None bodies)) as [r' settled].
  destruct (match settled with Some v => onSettled i v a | None => (a, []) end) as [a1 log1].
  destruct (IH (S i) (tl bodies) a1) as [H1 H2].
  destruct (frame_from M (S i) ds (tl bodies) a1) as [[ds'' a2] log2]. cbn in *.
  now rewrite H1, H2.
Qed.

Lemma render_all_mounted w : mounted (dice w) -> mounted (dice (render_all w)).
Proof.
  intros [Hs Hr]. unfold render_all, mounted. cbn [dice].
  rewrite map_map. cbn [render_die spawn]. split; [exact Hs|].
  rewrite forallb_forall in *. intros d Hd. apply in_map_iff in Hd as (d0 & <- & Hd0).
  cbn. now apply Hr.
Qed.

Lemma rollAll_mounted M bodies random w :
  mounted (dice w) -> mounted (dice (fst (rollAll M bodies random w))).
Proof.
  intros [Hs Hr]. unfold rollAll.
  destruct (roll_each_mounted M (dice w) bodies random) as [E1 E2].
  destruct (roll_each M (dice w) bodies random) as [ds calls]. cbn in *.
  split; congruence.
Qed.

Lemma frame_mounted M bodies w :
  mounted (dice w) -> mounted (dice (fst (frame M bodies w))).
Proof.
  intros [Hs Hr]. unfold frame.
  destruct (frame_from_mounted M (dice w) 0 bodies (app w)) as [E1 E2].
  destruct (frame_from M 0 (dice w) bodies (app w)) as [[ds a] log]. cbn in *.
  split; congruence.
Qed.

Lemma ui_step_mounted M w e : mounted (dice w) -> mounted (dice (ui_step M w e)).
Proof.
  intros H. destruct e as [bodies random|bodies| |]; cbn [ui_step].
  - now apply rollAll_mounted.
  - now apply frame_mounted.
  - now apply render_all_mounted.
  - exact H.
Qed.

Lemma ui_run_mounted M events : mounted (dice (ui_run M events)).
Proof.
  unfold ui_run. rewrite <- fold_left_rev_right.
  induction (rev events) as [|e es IH]; [now split|].
  cbn [fold_right]. now apply ui_step_mounted.
Qed.

Lemma frames_mounted M beats : forall w,
  mounted (dice w) -> mounted (dice (fst (frames M beats w))).
Proof.
  induction beats as [|[bodies|] beats IH]; intros w H; [exact H| |].
  - cbn [frames]. pose proof (frame_mounted M bodies w H) as H1.
    destruct (frame M bodies w) as [w1 log1]. cbn [fst] in H1.
    specialize (IH w1 H1). now destruct (frames M beats w1).
  - cbn [frames]. apply IH. now apply render_all_mounted.
Qed.

Lemma mounted_nth ds i :
  mounted ds -> (i < N)%nat ->
  exists d, nth_error ds i = Some d /\ in_diceRefs d = true
            /\ spawn d = nth i spawns (mkVec3 0 0 0).
Proof.
  intros [Hs Hr] Hi.
  assert (Hlen : length ds = N) by (rewrite <- (length_map spawn), Hs; reflexivity).
  destruct (nth_error ds i) as [d|] eqn:E.
  - exists d. split; [reflexivity|]. split.
    + rewrite forallb_forall in Hr. apply Hr. eapply nth_error_In; eauto.
    + symmetry. apply nth_error_nth. rewrite <- Hs. now apply map_nth_error.
  - apply nth_error_None in E. lia.
Qed.

Lemma roll_reads_nine_draws M spawn rb_current rolling random random' :
  (forall k, (k < 9)%nat -> random k = random' k) ->
  roll M spawn rb_current rolling random = roll M spawn rb_current rolling random'.
Proof.
  intros H. unfold roll. destruct rb_current as [body|]; [|reflexivity].
  unfold roll_rotation, euler_angle, roll_ix, roll_iy, roll_iz, roll_tx, roll_ty, roll_tz.
  now rewrite !H by lia.
Qed.

Lemma roll_each_present M ds : forall bodies random i d body,
  forallb in_diceRefs ds = true ->
  (forall j, (j < i)%nat -> exists b, nth j bodies None = Some b) ->
  nth_error ds i = Some d ->
  nth i bodies None = Some body ->
  nth_error (snd (roll_each M ds bodies random)) i
  = Some (roll_calls (roll M (spawn d) (Some body) (rolling_next d)
                        (draws_from (9 * i) random))).
Proof.
  induction ds as [|d0 ds IH]; intros bodies random i d body Hreg Hpre Hd Hb.
  - destruct i; discriminate.
  - cbn [forallb] in Hreg. apply andb_prop in Hreg as [Hreg0 Hreg].
    cbn [roll_each]. rewrite Hreg0.
    destruct i as [|i].
    + injection Hd as ->.
      destruct (roll_each M ds (tl bodies) _) as [ds'' calls]. cbn [snd nth_error].
      replace (hd None bodies) with (Some body) by (destruct bodies; exact (eq_sym Hb)).
      reflexivity.
    + destruct (Hpre 0%nat ltac:(lia)) as [b0 Hb0].
      replace (hd None bodies) with (Some b0) by (destruct bodies; exact (eq_sym Hb0)).
      cbn [roll roll_draws].
      specialize (IH (tl bodies) (fun k => random (9 + k)%nat) i d body Hreg).
      destruct (roll_each M ds (tl bodies) _) as [ds'' calls]. cbn [snd nth_error] in *.
      rewrite IH.
      * rewrite (roll_reads_nine_draws M (spawn d) (Some body) (rolling_next d)
                   (draws_from (9 * i) (fun k => random (9 + k)%nat))
                   (draws_from (9 * S i) random)); [reflexivity|].
        intros k _. unfold draws_from. f_equal. lia.
      * intros j Hj. destruct (Hpre (S j) ltac:(lia)) as [b Hb'].
        exists b. destruct bodies; [destruct j; discriminate|exact Hb'].
      * exact Hd.
      * destruct bodies; [discriminate|exact Hb].
Qed.


Lemma rollAll_app M bodies random w :
  app (fst (rollAll M bodies random w))
  = mkApp [null; null; null] None false content_empty_string.
Proof. unfold rollAll. destruct (roll_each M (dice w) bodies random). reflexivity. Qed.



(** ** Ticks and renders of the whole scene *)

Lemma completions_app l1 l2 :
  completions (l1 ++ l2) = (completions l1 + completions l2)%nat.
Proof. unfold completions. now rewrite filter_app, length_app. Qed.

(** After a click with the three bodies present and a render, the three
    dice are rolling and the slots are empty. *)
Lemma cycle_start M b0 b1 b2 random w :
  mounted (dice w) ->
  in_cycle None None None
    (render_all (fst (rollAll M [Some b0; Some b1; Some b2] random w))).
Proof.
  intros [Hs Hh]. destruct w as [ds a]. cbn [dice] in *.
  destruct ds as [|[sp0 h0 r0 n0] [|[sp1 h1 r1 n1] [|[sp2 h2 r2 n2] [|d ds]]]];
    try discriminate.
  cbn in Hh. destruct h0, h1, h2; try discriminate.
  unfold in_cycle, rollAll, render_all. cbn. repeat split; reflexivity.
Qed.

Lemma in_cycle_world s0 s1 s2 w :
  in_cycle s0 s1 s2 w ->
  exists sp0 sp1 sp2 c,
    w = mkWorld
          [ mkDie sp0 true (is_rolling s0) (is_rolling s0)
          ; mkDie sp1 true (is_rolling s1) (is_rolling s1)
          ; mkDie sp2 true (is_rolling s2) (is_rolling s2) ]
          (mkApp [slot s0; slot s1; slot s2]
             (match s0, s1, s2 with
              | Some a, Some b, Some c => Some [number a; number b; number c]
              | _, _, _ => None
              end)
             (match s0, s1, s2 with
              | Some a, Some b, Some c => (a + b + c =? 3)%Z
              | _, _, _ => false
              end) c).
Proof.
  intros (Hr & Hn & Hh & Hp & Hf & Hm). destruct w as [ds a]. cbn [dice app] in *.
  destruct ds as [|[sp0 h0 r0 n0] [|[sp1 h1 r1 n1] [|[sp2 h2 r2 n2] [|d ds]]]];
    try discriminate.
  cbn in Hr, Hn, Hh.
  injection Hr as -> -> ->. injection Hn as -> -> ->. injection Hh as -> -> ->.
  destruct a as [p f m c]. cbn [pendingValues finalValues modalOpen] in Hp, Hf, Hm.
  subst p f m. now exists sp0, sp1, sp2, c.
Qed.

(** A tick at which the three dice are polled as rolling and lie at rest:
    each reports, in the order of the dice. *)
Lemma frame_all_report M b0 b1 b2 sp0 sp1 sp2 n0 n1 n2 a :
  at_rest M b0 = true -> at_rest M b1 = true -> at_rest M b2 = true ->
  frame M [Some b0; Some b1; Some b2]
    (mkWorld [mkDie sp0 true true n0; mkDie sp1 true true n1; mkDie sp2 true true n2] a)
  = let '(a1, log1) := onSettled 0 (getDiceValue (rotation b0)) a in
    let '(a2, log2) := onSettled 1 (getDiceValue (rotation b1)) a1 in
    let '(a3, log3) := onSettled 2 (getDiceValue (rotation b2)) a2 in
    (mkWorld [ mkDie sp0 true true false; mkDie sp1 true true false
             ; mkDie sp2 true true false ] a3,
     log1 ++ log2 ++ log3 ++ []).
Proof.
  intros H0 H1 H2. unfold frame. cbn [frame_from dice app hd tl].
  rewrite !poll_die_rolling by reflexivity. rewrite H0, H1, H2.
  destruct (onSettled 0 _ a) as [a1 log1].
  destruct (onSettled 1 _ a1) as [a2 log2].
  destruct (onSettled 2 _ a2) as [a3 log3]. reflexivity.
Qed.

(** The three reports of such a tick, on empty slots and on full ones. *)
Lemma frame_all_report_fresh M b0 b1 b2 sp0 sp1 sp2 n0 n1 n2 fin m c :
  at_rest M b0 = true -> at_rest M b1 = true -> at_rest M b2 = true ->
  exists a' log,
    frame M [Some b0; Some b1; Some b2]
      (mkWorld [mkDie sp0 true true n0; mkDie sp1 true true n1; mkDie sp2 true true n2]
         (mkApp [null; null; null] fin m c))
    = (mkWorld [ mkDie sp0 true true false; mkDie sp1 true true false
               ; mkDie sp2 true true false ] a', log)
    /\ completions log = 1%nat
    /\ exists x0 x1 x2, pendingValues a' = [number x0; number x1; number x2].
Proof.
  intros H0 H1 H2. rewrite (frame_all_report M b0 b1 b2 _ _ _ _ _ _ _ H0 H1 H2).
  generalize (getDiceValue (rotation b0)) (getDiceValue (rotation b1))
             (getDiceValue (rotation b2)).
  intros f0 f1 f2. unfold onSettled. cbn.
  destruct (f0 + f1 + f2 =? 3)%Z; eexists; eexists;
    (split; [reflexivity|split; [reflexivity|now exists f0, f1, f2]]).
Qed.

Lemma frame_all_report_full M b0 b1 b2 sp0 sp1 sp2 n0 n1 n2 x0 x1 x2 fin m c :
  at_rest M b0 = true -> at_rest M b1 = true -> at_rest M b2 = true ->
  exists a' log,
    frame M [Some b0; Some b1; Some b2]
      (mkWorld [mkDie sp0 true true n0; mkDie sp1 true true n1; mkDie sp2 true true n2]
         (mkApp [number x0; number x1; number x2] fin m c))
    = (mkWorld [ mkDie sp0 true true false; mkDie sp1 true true false
               ; mkDie sp2 true true false ] a', log)
    /\ completions log = 3%nat.
Proof.
  intros H0 H1 H2. rewrite (frame_all_report M b0 b1 b2 _ _ _ _ _ _ _ H0 H1 H2).
  generalize (getDiceValue (rotation b0)) (getDiceValue (rotation b1))
             (getDiceValue (rotation b2)).
  intros f0 f1 f2. unfold onSettled. cbn.
  destruct (f0 + x1 + x2 =? 3)%Z; cbn;
    destruct (f0 + f1 + x2 =? 3)%Z; cbn;
    destruct (f0 + f1 + f2 =? 3)%Z; cbn;
    eexists; eexists; (split; reflexivity).
Qed.

Lemma frames_tick M bodies rest w :
  frames M (tick bodies :: rest) w
  = (fst (frames M rest (fst (frame M bodies w))),
     snd (frame M bodies w) ++ snd (frames M rest (fst (frame M bodies w)))).
Proof.
  cbn [frames]. destruct (frame M bodies w) as [w1 log1]. cbn [fst snd].
  now destruct (frames M rest w1).
Qed.

(** C9: the code does not keep the claim.  [onSettled] checks no phase, and
    the check made by the poll reads the constant [rolling] of the last
    render: after a click and a render, a first tick with the three bodies
    at rest completes the roll (one call of setFinalValues); a second tick
    before React has rendered the dice again polls each die as rolling,
    each calls [onSettled] a second time, every entry of pendingValues is
    non-null, and each call runs setFinalValues and the completion
    predicate again: four completions in one roll cycle.  With a render
    between the two ticks there is one.  Called by hand a second time for
    die 0 after 1, 1, 1, [onSettled] completes again as well. *)
Theorem C9_completion_fires_again_before_render
    (M : MathImpl) (events : list UIEvent) (b0 b1 b2 : RigidBody) (random : Random) :
  at_rest M b0 = true -> at_rest M b1 = true -> at_rest M b2 = true ->
  let bodies := [Some b0; Some b1; Some b2] in
  let w1 := render_all (fst (rollAll M bodies random (ui_run M events))) in
  completions (snd (frames M [tick bodies] w1)) = 1%nat
  /\ completions (snd (frames M [tick bodies; tick bodies] w1)) = 4%nat
  /\ completions (snd (frames M [tick bodies; render; tick bodies] w1)) = 1%nat
  /\ completions
       (snd (onSettled 0 1
               (record_all [(0%nat, 1%Z); (1%nat, 1%Z); (2%nat, 1%Z)] initial_app)))
     = 1%nat.
Proof.
  intros H0 H1 H2. cbv zeta.
  destruct (in_cycle_world _ _ _ _
              (cycle_start M b0 b1 b2 random _ (ui_run_mounted M events)))
    as (sp0 & sp1 & sp2 & c & ->).
  cbn [is_rolling slot]. rewrite !frames_tick. cbn [frames fst snd].
  destruct (frame_all_report_fresh M b0 b1 b2 sp0 sp1 sp2 true true true None false c
              H0 H1 H2) as (a1 & log1 & -> & Hc1 & x0 & x1 & x2 & Hp).
  cbn [fst snd]. rewrite !app_nil_r.
  destruct a1 as [p fin m c1]. cbn [pendingValues] in Hp. subst p.
  destruct (frame_all_report_full M b0 b1 b2 sp0 sp1 sp2 false false false
              x0 x1 x2 fin m c1 H0 H1 H2) as (a2 & log2 & -> & Hc2).
  cbn [render_all dice app map render_die rolling_next spawn in_diceRefs fst snd].
  rewrite completions_app, Hc1, Hc2. repeat split.
Qed.

(** C9 on three dice that lie still on the face 1. *)
Lemma C9_witness :
  let body := mkBody (mkVec3 0 0 0) (mkVec3 0 0 0) q_identity in
  let bodies := [Some body; Some body; Some body] in
  let w1 := render_all (fst (rollAll sample_Math bodies (fun _ => 0.25)
                               (ui_run sample_Math []))) in
  completions (snd (frames sample_Math [tick bodies; tick bodies] w1)) = 4%nat.
Proof.
  exact (proj1 (proj2 (C9_completion_fires_again_before_render sample_Math []
                         (mkBody (mkVec3 0 0 0) (mkVec3 0 0 0) q_identity)
                         (mkBody (mkVec3 0 0 0) (mkVec3 0 0 0) q_identity)
                         (mkBody (mkVec3 0 0 0) (mkVec3 0 0 0) q_identity)
                         (fun _ => 0.25) eq_refl eq_refl eq_refl))).
Defined.

(** The scenario of the specification, with a render after the click and
    after every tick: the three dice are thrown, tumble for a tick, come to
    rest showing 2, 5 and 6; the roll completes once, with [2, 5, 6], and
    later ticks change nothing. *)
Example end_to_end_2_5_6 :
  let thrown := render_all
                  (fst (rollAll sample_Math [resting q_identity; resting q_identity;
                                             resting q_identity]
                          (fun _ => 0.25) initial_world)) in
  let beats := rendered_each_tick
                 [ [tumbling q_Z90; tumbling q_Z90; tumbling q_Z90]
                 ; [resting q_X90; tumbling q_X270; resting q_X180]
                 ; [resting q_Z90; resting q_X270; resting q_Z90]
                 ; [resting q_Z90; resting q_Z90; resting q_Z90] ] in
  map rolling (dice thrown) = [true; true; true]
  /\ snd (frames sample_Math beats thrown)
     = [setFinalValues [number 2; number 5; number 6]]
  /\ finalValues (app (fst (frames sample_Math beats thrown)))
     = Some [number 2; number 5; number 6]
  /\ map rolling (dice (fst (frames sample_Math beats thrown))) = [false; false; false].
Proof. vm_compute. repeat split. Qed.

(** ** The order of binary64 numbers *)

Module FloatOrder.

Lemma SFleb_refl a : a <> S754_nan -> SFleb a a = true.
Proof.
  unfold SFleb, SFcompare; destruct a; try congruence; intros _; sf_cases.
Qed.

Lemma SFltb_false_leb a b :
  a <> S754_nan -> b <> S754_nan -> SFltb a b = false -> SFleb b a = true.
Proof.
  unfold SFleb, SFltb, SFcompare; destruct a, b; try congruence; intros _ _; sf_cases.
Qed.

Lemma SFleb_ltb_trans a b c :
  SFleb a b = true -> SFltb b c = true -> SFltb a c = true.
Proof. unfold SFleb, SFltb, SFcompare; destruct a, b, c; sf_cases. Qed.

Lemma SFleb_trans a b c :
  SFleb a b = true -> SFleb b c = true -> SFleb a c = true.
Proof. unfold SFleb, SFcompare; destruct a, b, c; sf_cases. Qed.

Lemma SFltb_leb a b : SFltb a b = true -> SFleb a b = true.
Proof. unfold SFleb, SFltb; destruct (SFcompare a b) as [[ | | ]|]; congruence. Qed.

Lemma SFltb_not_leb a b : SFltb a b = true -> SFleb b a = false.
Proof. unfold SFleb, SFltb, SFcompare; destruct a, b; sf_cases. Qed.

Lemma SF_neg_infinity_leb a : a <> S754_nan -> SFleb (S754_infinity true) a = true.
Proof. unfold SFleb, SFcompare; destruct a; try congruence; intros _; sf_cases. Qed.

Lemma number_spec x : is_nan x = false -> Prim2SF x <> S754_nan.
Proof.
  unfold is_nan. rewrite FloatAxioms.eqb_spec. intros H E. rewrite E in H. discriminate.
Qed.

Lemma leb_refl x : is_nan x = false -> (x <=? x) = true.
Proof. intros H. rewrite FloatAxioms.leb_spec. now apply SFleb_refl, number_spec. Qed.

Lemma ltb_false_leb x y :
  is_nan x = false -> is_nan y = false -> (x <? y) = false -> (y <=? x) = true.
Proof.
  rewrite FloatAxioms.ltb_spec, FloatAxioms.leb_spec. intros Hx Hy. now apply SFltb_false_leb; apply number_spec.
Qed.

Lemma leb_ltb_trans x y z : (x <=? y) = true -> (y <? z) = true -> (x <? z) = true.
Proof. rewrite !FloatAxioms.ltb_spec, FloatAxioms.leb_spec. apply SFleb_ltb_trans. Qed.

Lemma leb_trans x y z : (x <=? y) = true -> (y <=? z) = true -> (x <=? z) = true.
Proof. rewrite !FloatAxioms.leb_spec. apply SFleb_trans. Qed.

Lemma ltb_leb x y : (x <? y) = true -> (x <=? y) = true.
Proof. rewrite FloatAxioms.ltb_spec, FloatAxioms.leb_spec. apply SFltb_leb. Qed.

Lemma ltb_not_leb x y : (x <? y) = true -> (y <=? x) = false.
Proof. rewrite FloatAxioms.ltb_spec, FloatAxioms.leb_spec. apply SFltb_not_leb. Qed.

Lemma neg_infinity_leb x : is_nan x = false -> (neg_infinity <=? x) = true.
Proof.
  intros H. rewrite FloatAxioms.leb_spec.
  change (Prim2SF neg_infinity) with (S754_infinity true).
  now apply SF_neg_infinity_leb, number_spec.
Qed.

End FloatOrder.

(** ** The loop selects the first maximum *)

Lemma find_first {A} (p : A -> bool) l1 f l2 :
  (forall g, In g l1 -> p g = false) -> p f = true ->
  find p (l1 ++ f :: l2) = Some f.
Proof.
  intros H1 Hf. induction l1 as [|g l1 IH]; cbn.
  - now rewrite Hf.
  - rewrite (H1 g (or_introl eq_refl)). apply IH. intros; apply H1; now right.
Qed.

Lemma scan_spec q : forall table bv bs,
  is_nan bs = false ->
  (forall f, In f table -> is_nan (score q f) = false) ->
  (scan q table (bv, bs) = (bv, bs)
   /\ forall g, In g table -> (score q g <=? bs) = true)
  \/ (exists l1 f l2,
        table = l1 ++ f :: l2
        /\ scan q table (bv, bs) = (value f, score q f)
        /\ (bs <? score q f) = true
        /\ (forall g, In g l1 -> (score q g <? score q f) = true)
        /\ (forall g, In g table -> (score q g <=? score q f) = true)).
Proof.
  induction table as [|f table IH]; intros bv bs Hbs Hnum.
  - left. split; [reflexivity|intros g []].
  - assert (Hf : is_nan (score q f) = false) by (apply Hnum; now left).
    assert (Ht : forall g, In g table -> is_nan (score q g) = false)
      by (intros; apply Hnum; now right).
    assert (Hstep : scan q (f :: table) (bv, bs)
                    = scan q table (if bs <? score q f
                                    then (value f, score q f) else (bv, bs)))
      by reflexivity.
    rewrite Hstep. clear Hstep.
    destruct (bs <? score q f) eqn:E.
    + right.
      destruct (IH (value f) (score q f) Hf Ht)
        as [[Hr Hle]|(l1 & f' & l2 & Ht' & Hr & Hlt & Hl1 & Hle)].
      * exists [], f, table. rewrite Hr.
        refine (conj eq_refl (conj eq_refl (conj E (conj _ _)))).
        -- intros g [].
        -- intros g [<-|Hg]; [now apply FloatOrder.leb_refl|now apply Hle].
      * exists (f :: l1), f', l2. rewrite Hr, Ht'.
        refine (conj eq_refl (conj eq_refl (conj _ (conj _ _)))).
        -- eapply FloatOrder.leb_ltb_trans; [apply FloatOrder.ltb_leb, E|exact Hlt].
        -- intros g [<-|Hg]; [exact Hlt|now apply Hl1].
        -- intros g [<-|Hg]; [now apply FloatOrder.ltb_leb|].
           apply Hle. now rewrite Ht'.
    + assert (Hfb : (score q f <=? bs) = true) by now apply FloatOrder.ltb_false_leb.
      destruct (IH bv bs Hbs Ht)
        as [[Hr Hle]|(l1 & f' & l2 & Ht' & Hr & Hlt & Hl1 & Hle)].
      * left. split; [exact Hr|]. intros g [<-|Hg]; auto.
      * right. exists (f :: l1), f', l2. rewrite Hr, Ht'.
        refine (conj eq_refl (conj eq_refl (conj Hlt (conj _ _)))).
        -- intros g [<-|Hg]; [|now apply Hl1].
           eapply FloatOrder.leb_ltb_trans; eauto.
        -- intros g [<-|Hg].
           ++ apply FloatOrder.ltb_leb. eapply FloatOrder.leb_ltb_trans; eauto.
           ++ apply Hle. now rewrite Ht'.
Qed.

Lemma getDiceValue_first_maximum q :
  scores_are_numbers q = true ->
  exists f, first_maximum q faceMap = Some f /\ getDiceValue q = value f.
Proof.
  intros Hnum. unfold scores_are_numbers in Hnum. rewrite forallb_forall in Hnum.
  assert (Hn : forall f, In f faceMap -> is_nan (score q f) = false).
  { intros f Hf. apply negb_true_iff. now apply Hnum. }
  unfold getDiceValue, first_maximum.
  destruct (scan_spec q faceMap 1%Z neg_infinity eq_refl Hn)
    as [[Hr Hle]|(l1 & f & l2 & Ht & Hr & Hlt & Hl1 & Hle)].
  - (* every score is -Infinity: the first entry is a maximum *)
    rewrite Hr. exists (mkFace (mkVector3 0 1 0) 1). split; [|reflexivity].
    apply (find_first _ [] _ _); [intros g []|].
    apply forallb_forall. intros g Hg.
    eapply FloatOrder.leb_trans; [now apply Hle|].
    apply FloatOrder.neg_infinity_leb, Hn. now left.
  - rewrite Hr. exists f. split; [|reflexivity].
    rewrite Ht at 2. apply find_first.
    + intros g Hg. unfold is_maximum.
      destruct (forallb _ faceMap) eqn:E; [|reflexivity].
      rewrite forallb_forall in E.
      assert (Hin : In f faceMap) by (rewrite Ht; apply in_elt).
      specialize (E f Hin). cbv beta in E.
      now rewrite (FloatOrder.ltb_not_leb _ _ (Hl1 g Hg)) in E.
    + apply forallb_forall. exact Hle.
Qed.

(** ** The call leaves the table and its argument untouched *)

Lemma write_last {A} (l : list A) a b :
  Store.write (l ++ [a]) (length l) b = l ++ [b].
Proof. induction l as [|h l IH]; cbn; [reflexivity|now rewrite IH]. Qed.

Lemma preserved_refl s : Store.preserved s s.
Proof. split; [reflexivity|]. exists []. now rewrite app_nil_r. Qed.

Lemma preserved_vec s0 s r :
  Store.preserved s0 s -> (r < length (Store.vectors s0))%nat ->
  Store.vec s r = Store.vec s0 r.
Proof.
  intros [_ [tmp E]] Hr. unfold Store.vec. rewrite E. now apply app_nth1.
Qed.

Lemma visit_store_spec s0 s worldQuat best f :
  Store.preserved s0 s ->
  (fst f < length (Store.vectors s0))%nat ->
  (UP_ref < length (Store.vectors s0))%nat ->
  Store.vec s0 UP_ref = UP ->
  exists s',
    visit_store worldQuat (best, s) f
    = (visit (Store.quat s0 worldQuat) best
             (mkFace (Store.vec s0 (fst f)) (snd f)), s')
    /\ Store.preserved s0 s'.
Proof.
  intros Hp Hf Hup Eup.
  pose proof (preserved_vec s0 s (fst f) Hp Hf) as Ef.
  destruct Hp as [Hq [tmp Hv]].
  unfold visit_store, Store.clone, Store.applyQuaternion.
  cbn [Store.vectors Store.quaternions fst snd].
  set (v := THREE.applyQuaternion _ _).
  assert (Ev : v = applyQuaternion (Store.vec s0 (fst f)) (Store.quat s0 worldQuat)).
  { unfold v, Store.vec, Store.quat. cbn [Store.vectors Store.quaternions].
    rewrite nth_middle, Hq. f_equal. exact Ef. }
  rewrite write_last.
  set (s2 := Store.mk (Store.vectors s ++ [v]) (Store.quaternions s)).
  assert (E1 : Store.vec s2 (length (Store.vectors s)) = v).
  { unfold Store.vec, s2. cbn. apply nth_middle. }
  assert (E2 : Store.vec s2 UP_ref = UP).
  { rewrite <- Eup. unfold Store.vec, s2. cbn [Store.vectors].
    rewrite Hv, <- app_assoc. now apply app_nth1. }
  rewrite E1, E2, Ev.
  exists s2. split.
  - unfold visit, score. cbn [dir value snd].
    now destruct (snd best <? _).
  - split; [exact Hq|]. exists (tmp ++ [v]). unfold s2. cbn.
    now rewrite Hv, <- app_assoc.
Qed.

Lemma fold_visit_store_spec s0 worldQuat l : forall best s,
  Store.preserved s0 s ->
  (forall f, In f l -> (fst f < length (Store.vectors s0))%nat) ->
  (UP_ref < length (Store.vectors s0))%nat ->
  Store.vec s0 UP_ref = UP ->
  exists s',
    fold_left (visit_store worldQuat) l (best, s)
    = (scan (Store.quat s0 worldQuat)
            (map (fun f => mkFace (Store.vec s0 (fst f)) (snd f)) l) best, s')
    /\ Store.preserved s0 s'.
Proof.
  induction l as [|f l IH]; intros best s Hp Hl Hup Eup.
  - exists s. now split.
  - cbn [fold_left map scan].
    destruct (visit_store_spec s0 s worldQuat best f Hp (Hl f (or_introl eq_refl)) Hup Eup)
      as (s1 & E & Hp1).
    rewrite E. apply IH; auto. intros g Hg. apply Hl. now right.
Qed.

Lemma table_intact_vec s r :
  table_intact s -> (r < 7)%nat ->
  Store.vec s r = nth r module_vectors (mkVector3 0 0 0)
  /\ (7 <= length (Store.vectors s))%nat.
Proof.
  unfold table_intact, Store.vec. intros H Hr.
  assert (Hlen : (7 <= length (Store.vectors s))%nat).
  { pose proof (f_equal (@length _) H) as L. rewrite length_firstn in L.
    change (length module_vectors) with 7%nat in L. lia. }
  split; [|exact Hlen].
  rewrite <- H, nth_firstn.
  destruct (r <? 7)%nat eqn:E; [reflexivity|]. apply Nat.ltb_ge in E. lia.
Qed.

Lemma getDiceValue_store_spec s worldQuat :
  table_intact s ->
  exists s',
    getDiceValue_store s worldQuat = (getDiceValue (Store.quat s worldQuat), s')
    /\ Store.preserved s s'
    /\ table_intact s'
    /\ Store.quat s' worldQuat = Store.quat s worldQuat.
Proof.
  intros Hs.
  assert (Hv : forall r, (r < 7)%nat ->
                         Store.vec s r = nth r module_vectors (mkVector3 0 0 0))
    by (intros; now apply table_intact_vec).
  destruct (table_intact_vec s 0 Hs ltac:(lia)) as [_ Hlen].
  destruct (fold_visit_store_spec s worldQuat faceMap_refs (1%Z, neg_infinity) s
              (preserved_refl s)) as (s' & E & Hp).
  - intros f Hf. cbn in Hf.
    repeat (destruct Hf as [<-|Hf]; [cbn; lia|]). destruct Hf.
  - unfold UP_ref. lia.
  - rewrite Hv by (unfold UP_ref; lia). reflexivity.
  - exists s'. unfold getDiceValue_store. unfold Best in *. rewrite E.
    cbn [map faceMap_refs fst snd].
    rewrite !Hv by lia. split; [reflexivity|]. split; [exact Hp|].
    destruct Hp as [Hq [tmp Ht]]. split.
    + unfold table_intact in *. rewrite Ht, firstn_app.
      replace (7 - length (Store.vectors s))%nat with 0%nat by lia.
      cbn [firstn]. now rewrite app_nil_r.
    + unfold Store.quat. now rewrite Hq.
Qed.

(** C2 as written fails: at a quaternion with a NaN component every dot
    product is NaN, no entry of the table has a maximal one (each comparison
    with NaN is false), and the call returns the initial bestValue 1. *)
Lemma C2_no_maximum_at_nan :
  map (fun f => is_nan (score q_nan f)) faceMap = [true; true; true; true; true; true]
  /\ first_maximum q_nan faceMap = None
  /\ getDiceValue q_nan = 1%Z
  /\ ~ (exists f, first_maximum q_nan faceMap = Some f /\ getDiceValue q_nan = value f).
Proof.
  split; [reflexivity|]. split; [reflexivity|]. split; [reflexivity|].
  intros (f & H & _). discriminate.
Qed.

(** C2, amended: for every quaternion whose six dot products are numbers
    (none is NaN), [getDiceValue] returns the value of the first entry, in
    table order, whose rotated direction has the maximal dot product with
    (0, 1, 0).  For every quaternion, NaN scores or not, the result depends
    on the components of the argument only, and a call changes neither the
    table nor its argument: in a store of objects it only allocates the
    clones. *)
Theorem C2_first_maximum_wins (q : Quaternion) :
  (scores_are_numbers q = true ->
   exists f, first_maximum q faceMap = Some f /\ getDiceValue q = value f)
  /\ (forall s worldQuat,
        table_intact s -> Store.quat s worldQuat = q ->
        exists s',
          getDiceValue_store s worldQuat = (getDiceValue q, s')
          /\ Store.preserved s s'
          /\ table_intact s'
          /\ Store.quat s' worldQuat = q)
  /\ (forall s1 r1 s2 r2,
        table_intact s1 -> table_intact s2 ->
        Store.quat s1 r1 = Store.quat s2 r2 ->
        fst (getDiceValue_store s1 r1) = fst (getDiceValue_store s2 r2)).
Proof.
  split; [intros Hnum; now apply getDiceValue_first_maximum|]. split.
  - intros s r Hs <-.
    destruct (getDiceValue_store_spec s r Hs) as (s' & E & Hp & Hi & Hq).
    exists s'. exact (conj E (conj Hp (conj Hi Hq))).
  - intros s1 r1 s2 r2 H1 H2 E.
    destruct (getDiceValue_store_spec s1 r1 H1) as (s1' & E1 & _).
    destruct (getDiceValue_store_spec s2 r2 H2) as (s2' & E2 & _).
    now rewrite E1, E2, E.
Qed.

(** C2 at the quarter turn about Z: the scores are numbers and the first
    maximum is the entry of +X. *)
Lemma C2_witness :
  exists f, first_maximum q_Z90 faceMap = Some f /\ getDiceValue q_Z90 = value f.
Proof. exact (proj1 (C2_first_maximum_wins q_Z90) eq_refl). Defined.

(** ** Rounding to binary64 keeps bounds *)

Module Binary64Facts.
Import Binary64.
#[local] Open Scope Z_scope.

Lemma digits2_bounds m :
  2 ^ (Zpos (digits2_pos m) - 1) <= Zpos m < 2 ^ Zpos (digits2_pos m).
Proof.
  induction m as [m IH|m IH|]; cbn [digits2_pos].
  - rewrite Pos2Z.inj_succ.
    replace (Z.succ (Zpos (digits2_pos m)) - 1) with (Z.succ (Zpos (digits2_pos m) - 1)) by lia.
    rewrite !Z.pow_succ_r by lia. lia.
  - rewrite Pos2Z.inj_succ.
    replace (Z.succ (Zpos (digits2_pos m)) - 1) with (Z.succ (Zpos (digits2_pos m) - 1)) by lia.
    rewrite !Z.pow_succ_r by lia. lia.
  - cbn. lia.
Qed.

Lemma digits2_le m b :
  Zpos m < 2 ^ b -> 0 <= b -> Zpos (digits2_pos m) <= b.
Proof.
  intros H Hb. destruct (digits2_bounds m) as [L _].
  destruct (Z.le_gt_cases (Zpos (digits2_pos m)) b) as [|G]; [assumption|exfalso].
  assert (2 ^ b <= 2 ^ (Zpos (digits2_pos m) - 1)) by (apply Z.pow_le_mono_r; lia).
  lia.
Qed.

Lemma shr_1_nonneg m r s :
  0 <= m -> shr_1 (Build_shr_record m r s) = Build_shr_record (Z.div2 m) (Z.odd m) (r || s).
Proof. destruct m as [|[p|p|]|p]; intros H; try reflexivity; lia. Qed.

Lemma shr_inv_step m k x : 0 <= k -> shr_inv m k x -> shr_inv m (k + 1) (shr_1 x).
Proof.
  intros Hk [Hq (t & Ht & E & Hs)]. destruct x as [q r s]. cbn [shr_m shr_r shr_s] in *.
  rewrite shr_1_nonneg by assumption. unfold shr_inv. cbn [shr_m shr_r shr_s].
  pose proof (Z.div2_odd q) as Hd.
  assert (0 <= Z.div2 q) by (apply Z.div2_nonneg; assumption).
  assert (Hp : 0 < 2 ^ k) by (apply Z.pow_pos_nonneg; lia).
  rewrite Z.pow_add_r, Z.pow_1_r by lia.
  split; [assumption|].
  exists ((if r then 2 ^ k else 0) + t). split; [|split].
  - destruct r; lia.
  - set (P := 2 ^ k) in *. set (q' := Z.div2 q) in *.
    destruct (Z.odd q); cbn [Z.b2z] in Hd; destruct r; nia.
  - destruct r, s; cbn; split; intros; try discriminate; try lia.
Qed.

Lemma iter_pos_inv {A} (f : A -> A) (P : Z -> A -> Prop) :
  (forall k x, 0 <= k -> P k x -> P (k + 1) (f x)) ->
  forall n k x, 0 <= k -> P k x -> P (k + Zpos n) (SpecFloat.iter_pos f n x).
Proof.
  intros Hstep. induction n as [n IH|n IH|]; intros k x Hk Hx; cbn [SpecFloat.iter_pos].
  - replace (k + Zpos n~1) with (k + 1 + Zpos n + Zpos n) by lia.
    apply IH; [lia|]. apply IH; [lia|]. now apply Hstep.
  - replace (k + Zpos n~0) with (k + Zpos n + Zpos n) by lia.
    apply IH; [lia|]. now apply IH.
  - now apply Hstep.
Qed.

(** [n] steps of [shr_1] from an exact mantissa. *)
Lemma shr_inv_iter m n :
  0 <= m -> shr_inv m (Zpos n) (SpecFloat.iter_pos shr_1 n (Build_shr_record m false false)).
Proof.
  intros Hm. change (Zpos n) with (0 + Zpos n).
  apply (iter_pos_inv shr_1 (shr_inv m)); [intros; now apply shr_inv_step|lia|].
  split; [assumption|]. exists 0. cbn [shr_m shr_r shr_s]. rewrite Z.pow_0_r.
  repeat split; lia.
Qed.

(** What rounding to nearest does to the shifted mantissa. *)
Lemma round_bracket m k x :
  0 <= k -> shr_inv m k x ->
  let q := shr_m x in
  let M := round_nearest_even q (loc_of_shr_record x) in
  0 <= q /\ q * 2 ^ k <= m < (q + 1) * 2 ^ k
  /\ (M = q \/ (M = q + 1 /\ 2 ^ k <= 2 * (m - q * 2 ^ k))).
Proof.
  intros Hk [Hq (t & Ht & E & Hs)]. destruct x as [q r s]. cbn [shr_m shr_r shr_s] in *.
  cbv zeta. split; [assumption|]. split.
  - destruct r; lia.
  - destruct r, s; cbn [loc_of_shr_record round_nearest_even].
    + right. split; lia.
    + destruct (Z.even q); [now left|right; split; lia].
    + now left.
    + now left.
Qed.


Lemma fexp_eq x : fexp prec emax x = Z.max (x - 53) (-1074).
Proof. reflexivity. Qed.

Lemma shr_fexp_exact m e :
  0 <= m ->
  let n := fexp prec emax (Zdigits2 m + e) - e in
  (n <= 0 -> shr_fexp prec emax m e loc_Exact = (Build_shr_record m false false, e))
  /\ (0 < n -> exists x, shr_fexp prec emax m e loc_Exact = (x, e + n) /\ shr_inv m n x).
Proof.
  intros Hm n. unfold shr_fexp, shr. fold n. cbn [shr_record_of_loc].
  destruct n as [|p|p] eqn:E; split; intros H; try lia; try reflexivity.
  exists (SpecFloat.iter_pos shr_1 p (Build_shr_record m false false)).
  split; [reflexivity|]. now apply shr_inv_iter.
Qed.

Lemma pow2_pos k : 0 <= k -> 0 < 2 ^ k.
Proof. intros. apply Z.pow_pos_nonneg; lia. Qed.

Lemma pow2_split a b : 0 <= a -> 0 <= b -> 2 ^ (a + b) = 2 ^ a * 2 ^ b.
Proof. intros. now apply Z.pow_add_r. Qed.

Lemma binary_round_aux_eq s mx ex lx :
  binary_round_aux prec emax s mx ex lx
  = let '(mrs, e') := shr_fexp prec emax mx ex lx in
    finish s (round_nearest_even (shr_m mrs) (loc_of_shr_record mrs)) e'.
Proof. reflexivity. Qed.

(** The second normalisation of [binary_round_aux] keeps a bound. *)
Lemma finish_bounded s M g mB eB :
  0 <= M -> -1074 <= g -> g <= eB -> eB <= 971 ->
  0 < mB < 2 ^ 53 ->
  M <= mB * 2 ^ (eB - g) ->
  bounded_by mB eB (finish s M g) /\ has_sign s (finish s M g).
Proof.
  intros HM Hg HgB HeB HmB Hb. unfold finish.
  pose proof (pow2_pos (eB - g) ltac:(lia)) as HP.
  destruct (shr_fexp_exact M g HM) as [Hno Hsh]. cbv zeta in Hno, Hsh.
  rewrite fexp_eq in Hno, Hsh.
  destruct M as [|p|p]; [| |lia].
  - (* the mantissa is zero *)
    rewrite Hno by (cbn [Zdigits2]; lia). cbn. auto.
  - cbn [Zdigits2] in Hno, Hsh. set (dM := Zpos (digits2_pos p)) in *.
    assert (HdM : dM + g - 53 <= eB).
    { assert (dM <= 53 + (eB - g)); [|lia].
      apply digits2_le; [|lia]. rewrite pow2_split by lia.
      assert (2 ^ 53 = 9007199254740992) by reflexivity. nia. }
    destruct (Z.le_gt_cases (Z.max (dM + g - 53) (-1074) - g) 0) as [Hn|Hn].
    + rewrite (Hno Hn). cbn [shr_m].
      replace (g <=? emax - prec) with true
        by (symmetry; apply Z.leb_le; change (emax - prec) with 971; lia).
      cbn. auto.
    + destruct (Hsh Hn) as (x & -> & Hx).
      set (n2 := Z.max (dM + g - 53) (-1074) - g) in *.
      destruct (round_bracket (Zpos p) n2 x ltac:(lia) Hx) as (Hq & [Hlo _] & _).
      pose proof (pow2_pos n2 ltac:(lia)) as HP2.
      destruct (shr_m x) as [|q|q] eqn:Eq; [cbn; auto| |lia].
      replace (g + n2 <=? emax - prec) with true
        by (symmetry; apply Z.leb_le; change (emax - prec) with 971; lia).
      cbn. split; [|reflexivity]. split; [lia|].
      assert (E : 2 ^ (eB - g) = 2 ^ (eB - (g + n2)) * 2 ^ n2)
        by (rewrite <- pow2_split by lia; f_equal; lia).
      rewrite E in Hb. pose proof (pow2_pos (eB - (g + n2)) ltac:(lia)).
      nia.
Qed.

(** Rounding to nearest does not go above a normal number B = mB * 2^eB of
    the format: an exact value below the midpoint of B and its successor
    rounds to at most B, without overflow, and keeps its sign. *)
Lemma round_aux_bounded s m e mB eB :
  2 ^ 52 <= mB < 2 ^ 53 -> -1074 <= eB <= 971 -> e <= eB ->
  2 * Zpos m < (2 * mB + 1) * 2 ^ (eB - e) ->
  let F := binary_round_aux prec emax s (Zpos m) e loc_Exact in
  bounded_by mB eB F /\ has_sign s F.
Proof.
  intros HmB HeB He Hx.
  assert (H52 : 2 ^ 52 = 4503599627370496) by reflexivity.
  assert (H53 : 2 ^ 53 = 9007199254740992) by reflexivity.
  set (k := eB - e) in *.
  pose proof (pow2_pos k ltac:(lia)) as Hk.
  destruct (digits2_bounds m) as [Hd1 Hd2]. set (d := Zpos (digits2_pos m)) in *.
  assert (Hd : d <= 53 + k).
  { apply digits2_le; [|lia]. rewrite pow2_split by lia. nia. }
  assert (Hbin : d + e <= 52 + eB -> Zpos m <= mB * 2 ^ k).
  { intros H. assert (2 ^ d <= 2 ^ (52 + k)) by (apply Z.pow_le_mono_r; lia).
    rewrite pow2_split in H0 by lia. nia. }
  cbv zeta. rewrite binary_round_aux_eq.
  destruct (shr_fexp_exact (Zpos m) e ltac:(lia)) as [Hno Hsh]. cbv zeta in Hno, Hsh.
  rewrite fexp_eq in Hno, Hsh. cbn [Zdigits2] in Hno, Hsh. fold d in Hno, Hsh.
  set (g := Z.max (d + e - 53) (-1074)) in *.
  destruct (Z.le_gt_cases (g - e) 0) as [Hn|Hn].
  - (* no shift: the value is kept *)
    rewrite (Hno Hn). cbn [shr_m loc_of_shr_record round_nearest_even].
    unfold finish. rewrite (Hno Hn). cbn [shr_m].
    replace (e <=? emax - prec) with true
      by (symmetry; apply Z.leb_le; change (emax - prec) with 971; lia).
    cbn. split; [|reflexivity]. split; [lia|]. fold k.
    destruct (Z.eq_dec k 0) as [E|E].
    + rewrite E in *. change (2 ^ 0) with 1 in *. lia.
    + apply Hbin. lia.
  - destruct (Hsh Hn) as (x & -> & Hx'). set (n := g - e) in *.
    destruct (round_bracket (Zpos m) n x ltac:(lia) Hx') as (Hq & [Hlo Hhi] & HM).
    cbv zeta in HM.
    set (M := round_nearest_even (shr_m x) (loc_of_shr_record x)) in *.
    pose proof (pow2_pos n ltac:(lia)) as HPn.
    replace (e + n) with g by lia.
    assert (HgB : g <= eB) by lia.
    apply finish_bounded; try lia.
    + (* the rounded mantissa stays below the bound *)
      destruct (Z.eq_dec g eB) as [E|E].
      * replace (eB - g) with 0 by lia. change (2 ^ 0) with 1.
        assert (k = n) by lia. subst k. rewrite H in *.
        destruct HM as [->|[-> HM]]; nia.
      * assert (Hm : Zpos m <= mB * 2 ^ k) by (apply Hbin; lia).
        assert (Ek : 2 ^ k = 2 ^ (eB - g) * 2 ^ n)
          by (rewrite <- pow2_split by lia; f_equal; lia).
        rewrite Ek in Hm. pose proof (pow2_pos (eB - g) ltac:(lia)).
        destruct HM as [->|[-> HM]]; nia.
Qed.

Lemma digits2_eq m b :
  2 ^ (b - 1) <= Zpos m < 2 ^ b -> 0 < b -> Zpos (digits2_pos m) = b.
Proof.
  intros [L U] Hb. destruct (digits2_bounds m) as [L' U'].
  assert (Zpos (digits2_pos m) <= b) by (apply digits2_le; lia).
  destruct (Z.eq_dec (Zpos (digits2_pos m)) b) as [|N]; [assumption|exfalso].
  assert (2 ^ Zpos (digits2_pos m) <= 2 ^ (b - 1)) by (apply Z.pow_le_mono_r; lia).
  lia.
Qed.

Lemma iter_xO m d : Zpos (Pos.iter xO m d) = Zpos m * 2 ^ Zpos d.
Proof.
  induction d as [|d IH] using Pos.peano_ind.
  - cbn. lia.
  - rewrite Pos.iter_succ, Pos2Z.inj_succ, Z.pow_succ_r by lia.
    rewrite Pos2Z.inj_xO, IH. lia.
Qed.

Lemma shl_align_spec mx ex ex' :
  let '(mz, ez) := shl_align mx ex ex' in
  ez <= ex /\ Zpos mz = Zpos mx * 2 ^ (ex - ez).
Proof.
  unfold shl_align. destruct (ex' - ex) as [|d|d] eqn:E.
  - rewrite Z.sub_diag. cbn. lia.
  - rewrite Z.sub_diag. cbn. lia.
  - split; [lia|]. rewrite iter_xO. f_equal. f_equal. lia.
Qed.

(** The same for [binary_round], which first aligns the mantissa. *)
Lemma round_bounded s m e mB eB :
  2 ^ 52 <= mB < 2 ^ 53 -> -1074 <= eB <= 971 -> e <= eB ->
  2 * Zpos m < (2 * mB + 1) * 2 ^ (eB - e) ->
  bounded_by mB eB (binary_round prec emax s m e)
  /\ has_sign s (binary_round prec emax s m e).
Proof.
  intros HmB HeB He Hx. unfold binary_round.
  pose proof (shl_align_spec m e (fexp prec emax (Zpos (digits2_pos m) + e))) as H.
  destruct (shl_align m e _) as [mz ez]. destruct H as [Hez Hmz].
  apply round_aux_bounded; try lia.
  rewrite Hmz.
  replace (eB - ez) with ((eB - e) + (e - ez)) by lia.
  rewrite pow2_split by lia.
  pose proof (pow2_pos (e - ez) ltac:(lia)). pose proof (pow2_pos (eB - e) ltac:(lia)).
  nia.
Qed.

(** Rounding does not go below a number of the format. *)
Lemma round_aux_lower s m e mB eB :
  2 ^ 52 <= mB < 2 ^ 53 -> -1074 <= eB -> e <= eB ->
  mB * 2 ^ (eB - e) <= Zpos m ->
  let F := binary_round_aux prec emax s (Zpos m) e loc_Exact in
  F = S754_infinity s
  \/ exists m' e', F = S754_finite s m' e'
                   /\ (eB < e' \/ (e' = eB /\ mB <= Zpos m')).
Proof.
  intros HmB HeB He Hx.
  assert (H52 : 2 ^ 52 = 4503599627370496) by reflexivity.
  assert (H53 : 2 ^ 53 = 9007199254740992) by reflexivity.
  set (k := eB - e) in *.
  pose proof (pow2_pos k ltac:(lia)) as Hk.
  destruct (digits2_bounds m) as [Hd1 Hd2]. set (d := Zpos (digits2_pos m)) in *.
  assert (Hd : 53 + k <= d).
  { destruct (Z.le_gt_cases (53 + k) d) as [|G]; [assumption|exfalso].
    assert (2 ^ d <= 2 ^ (52 + k)) by (apply Z.pow_le_mono_r; lia).
    rewrite pow2_split in H by lia. nia. }
  cbv zeta. rewrite binary_round_aux_eq.
  destruct (shr_fexp_exact (Zpos m) e ltac:(lia)) as [Hno Hsh]. cbv zeta in Hno, Hsh.
  rewrite fexp_eq in Hno, Hsh. cbn [Zdigits2] in Hno, Hsh. fold d in Hno, Hsh.
  replace (Z.max (d + e - 53) (-1074)) with (d + e - 53) in * by lia.
  set (n := d + e - 53 - e) in *.
  assert (Hfin : forall M g, 2 ^ 52 <= M <= 2 ^ 53 -> -1074 <= g ->
                   (g = eB -> mB <= M) -> eB <= g ->
                   finish s M g = S754_infinity s
                   \/ exists m' e', finish s M g = S754_finite s m' e'
                        /\ (eB < e' \/ (e' = eB /\ mB <= Zpos m'))).
  { intros M g HM Hg HgB HBg. unfold finish.
    destruct (shr_fexp_exact M g ltac:(lia)) as [Hno2 Hsh2]. cbv zeta in Hno2, Hsh2.
    rewrite fexp_eq in Hno2, Hsh2.
    destruct M as [|p|p]; try lia. cbn [Zdigits2] in Hno2, Hsh2.
    destruct (Z.eq_dec (Zpos p) (2 ^ 53)) as [E|E].
    - assert (E54 : Zpos (digits2_pos p) = 54).
      { apply digits2_eq; [|lia]. rewrite E. split; [discriminate|reflexivity]. }
      rewrite E54 in Hsh2.
      destruct (Hsh2 ltac:(lia)) as (x & -> & Hx2).
      replace (Z.max (54 + g - 53) (-1074) - g) with 1 in * by lia.
      destruct (round_bracket (Zpos p) 1 x ltac:(lia) Hx2) as (Hq & [Hlo Hhi] & _).
      change (2 ^ 1) with 2 in *.
      destruct (shr_m x) as [|q|q] eqn:Eq; try lia.
      destruct (g + 1 <=? emax - prec); [right|now left].
      exists q, (g + 1). split; [reflexivity|]. left; lia.
    - assert (E53 : Zpos (digits2_pos p) = 53).
      { apply digits2_eq; [|lia]. change (53 - 1) with 52. lia. }
      rewrite E53 in Hno2.
      rewrite Hno2 by lia. cbn [shr_m].
      destruct (g <=? emax - prec); [right|now left].
      exists p, g. split; [reflexivity|].
      destruct (Z.eq_dec g eB) as [Eg|Eg]; [right; auto|left; lia]. }
  destruct (Z.le_gt_cases n 0) as [Hn|Hn].
  - rewrite (Hno Hn). cbn [shr_m loc_of_shr_record round_nearest_even].
    assert (Ek : k = 0) by lia. assert (Ed : d = 53) by lia.
    replace (d - 1) with 52 in Hd1 by lia. replace d with 53 in Hd2 by lia.
    replace k with 0 in Hx by lia. change (2 ^ 0) with 1 in Hx.
    apply Hfin; lia.
  - destruct (Hsh Hn) as (x & -> & Hx').
    destruct (round_bracket (Zpos m) n x ltac:(lia) Hx') as (Hq & [Hlo Hhi] & HM).
    cbv zeta in HM.
    set (M := round_nearest_even (shr_m x) (loc_of_shr_record x)) in *.
    pose proof (pow2_pos n ltac:(lia)) as HPn.
    assert (Ed : 2 ^ d = 2 ^ 53 * 2 ^ n)
      by (rewrite <- pow2_split by lia; f_equal; lia).
    assert (Ed1 : 2 ^ (d - 1) = 2 ^ 52 * 2 ^ n)
      by (rewrite <- pow2_split by lia; f_equal; lia).
    assert (Hq52 : 2 ^ 52 <= shr_m x < 2 ^ 53) by nia.
    apply Hfin; try lia.
    intros Eg. assert (k = n) by lia. rewrite H in Hx.
    assert (mB <= shr_m x) by nia. lia.
Qed.

Lemma round_lower s m e mB eB :
  2 ^ 52 <= mB < 2 ^ 53 -> -1074 <= eB -> e <= eB ->
  mB * 2 ^ (eB - e) <= Zpos m ->
  let F := binary_round prec emax s m e in
  F = S754_infinity s
  \/ exists m' e', F = S754_finite s m' e'
                   /\ (eB < e' \/ (e' = eB /\ mB <= Zpos m')).
Proof.
  intros HmB HeB He Hx. cbv zeta. unfold binary_round.
  pose proof (shl_align_spec m e (fexp prec emax (Zpos (digits2_pos m) + e))) as H.
  destruct (shl_align m e _) as [mz ez]. destruct H as [Hez Hmz].
  apply round_aux_lower; try lia.
  rewrite Hmz.
  replace (eB - ez) with ((eB - e) + (e - ez)) by lia.
  rewrite pow2_split by lia.
  pose proof (pow2_pos (e - ez) ltac:(lia)). pose proof (pow2_pos (eB - e) ltac:(lia)).
  nia.
Qed.

Lemma shl_align_le mx ex ex' :
  ex' <= ex ->
  exists mz, shl_align mx ex ex' = (mz, ex') /\ Zpos mz = Zpos mx * 2 ^ (ex - ex').
Proof.
  intros H. unfold shl_align. destruct (ex' - ex) as [|d|d] eqn:E; try lia.
  - assert (ex' = ex) by lia. subst ex'. exists mx. rewrite Z.sub_diag.
    split; [reflexivity|]. change (2 ^ 0) with 1. lia.
  - exists (Pos.iter xO mx d). split; [reflexivity|]. rewrite iter_xO.
    do 2 f_equal. lia.
Qed.

Lemma unit_like_bounded F :
  unit_like F -> bounded_by (2 ^ 53 - 1) (-53) F /\ nonneg F.
Proof.
  destruct F as [s|s| |s m e]; cbn [unit_like bounded_by nonneg]; try tauto.
  destruct s; [tauto|]. intros [He Hm]. split; [|exact I]. split; [exact He|].
  pose proof (pow2_pos (-53 - e) ltac:(lia)).
  assert (2 ^ 53 = 9007199254740992) by reflexivity. nia.
Qed.

(** A valid number r with 0 <= r and r < 1. *)
Lemma unit_interval_spec (r : float) :
  in_unit_interval r = true -> unit_like (Prim2SF r).
Proof.
  unfold in_unit_interval. intros H. apply andb_prop in H as [H0 H1].
  rewrite FloatAxioms.leb_spec in H0. rewrite FloatAxioms.ltb_spec in H1.
  change (Prim2SF 0%float) with (S754_zero false) in H0.
  change (Prim2SF 1%float) with (S754_finite false 4503599627370496 (-52)) in H1.
  pose proof (Prim2SF_valid r) as V.
  destruct (Prim2SF r) as [s|s| |s m e]; try exact I; try discriminate.
  - destruct s; discriminate.
  - destruct s; [discriminate|]. clear H0. cbn [unit_like].
    cbn [valid_binary] in V. unfold bounded, canonical_mantissa in V.
    apply andb_prop in V as [V _]. apply Z.eqb_eq in V. rewrite fexp_eq in V.
    destruct (digits2_bounds m) as [Hd1 Hd2].
    set (d := Zpos (digits2_pos m)) in *.
    assert (Hd : d <= 53) by lia.
    assert (Hm : Zpos m < 2 ^ 53).
    { assert (2 ^ d <= 2 ^ 53) by (apply Z.pow_le_mono_r; lia). lia. }
    split; [|exact Hm].
    unfold SFltb, SFcompare in H1.
    destruct (Z.compare_spec e (-52)) as [E|E|E]; try discriminate; [|lia].
    exfalso.
    assert (C : Pos.compare_cont Eq m 4503599627370496 = Lt).
    { destruct (Pos.compare_cont Eq m 4503599627370496); try discriminate; reflexivity. }
    pose proof (Pos2Z.pos_lt_pos m 4503599627370496 C) as C'.
    assert (d = 53) by lia.
    replace (d - 1) with 52 in Hd1 by lia.
    change (2 ^ 52) with 4503599627370496 in Hd1.
    lia.
Qed.

(** r - 0.5 for r in the unit interval: at most one half in magnitude. *)
Lemma sub_half_bounded F :
  unit_like F ->
  bounded_by (2 ^ 52) (-53)
    (SFsub prec emax F (S754_finite false 4503599627370496 (-53))).
Proof.
  assert (H52 : 2 ^ 52 = 4503599627370496) by reflexivity.
  assert (H53 : 2 ^ 53 = 9007199254740992) by reflexivity.
  destruct F as [s|s| |s m e]; cbn [unit_like]; try tauto.
  - intros _. cbn [SFsub negb bounded_by]. split; [lia|].
    change (2 ^ (-53 - -53)) with 1. lia.
  - destruct s; [tauto|]. intros [He Hm]. unfold SFsub. cbv zeta. cbn [cond_Zopp].
    replace (Z.min e (-53)) with e by lia.
    destruct (shl_align_le m e e ltac:(lia)) as (m1 & -> & E1).
    destruct (shl_align_le 4503599627370496 (-53) e He) as (m2 & -> & E2).
    cbn [fst]. rewrite Z.sub_diag in E1. change (2 ^ 0) with 1 in E1.
    pose proof (pow2_pos (-53 - e) ltac:(lia)) as HJ.
    set (J := 2 ^ (-53 - e)) in *.
    unfold binary_normalize. destruct (Zpos m1 - Zpos m2) as [|p|p] eqn:ED.
    + exact I.
    + apply round_bounded; lia.
    + apply round_bounded; lia.
Qed.

(** The product of a bounded number and a number of the format. *)
Lemma mul_bounded X sy my ey mA eA mC eC :
  bounded_by mA eA X -> 0 < mA ->
  2 ^ 52 <= mC < 2 ^ 53 -> -1074 <= eC <= 971 ->
  0 <= eC - eA - ey ->
  2 * mA * Zpos my < (2 * mC + 1) * 2 ^ (eC - eA - ey) ->
  bounded_by mC eC (SFmul prec emax X (S754_finite sy my ey))
  /\ (sy = false -> nonneg X -> nonneg (SFmul prec emax X (S754_finite sy my ey))).
Proof.
  intros HX HmA HmC HeC Hc Hlt.
  destruct X as [s|s| |s m e]; cbn [bounded_by] in HX;
    [|destruct HX|destruct HX|].
  - cbn [SFmul bounded_by nonneg]. split; [exact I|]. intros; exact I.
  - destruct HX as [He Hm]. cbn [SFmul].
    destruct (round_aux_bounded (xorb s sy) (m * my) (e + ey) mC eC HmC HeC ltac:(lia))
      as [Hb Hs].
    + rewrite Pos2Z.inj_mul.
      replace (eC - (e + ey)) with ((eC - eA - ey) + (eA - e)) by lia.
      rewrite pow2_split by lia.
      pose proof (pow2_pos (eA - e) ltac:(lia)).
      pose proof (pow2_pos (eC - eA - ey) ltac:(lia)).
      assert (2 * (Zpos m * Zpos my) <= 2 * mA * Zpos my * 2 ^ (eA - e)) by nia.
      nia.
    + split; [exact Hb|]. intros -> Hn. cbn [nonneg] in Hn.
      destruct s; [tauto|]. cbn [xorb] in Hs.
      destruct (binary_round_aux _ _ _ _ _ _) as [s'|s'| |s' m' e'];
        cbn [has_sign nonneg] in *; subst; tauto.
Qed.

(** 2 + u for u in the unit interval: between 2 and 3. *)
Lemma add_two_spec U :
  bounded_by (2 ^ 53 - 1) (-53) U -> nonneg U ->
  exists m', SFadd prec emax (S754_finite false 4503599627370496 (-51)) U
             = S754_finite false m' (-51)
             /\ 2 ^ 52 <= Zpos m' <= 3 * 2 ^ 51.
Proof.
  assert (H51 : 2 ^ 51 = 2251799813685248) by reflexivity.
  assert (H52 : 2 ^ 52 = 4503599627370496) by reflexivity.
  assert (H53 : 2 ^ 53 = 9007199254740992) by reflexivity.
  intros HU Hn. destruct U as [s|s| |s mu eu]; cbn [bounded_by nonneg] in HU, Hn;
    try tauto.
  - exists 4503599627370496%positive. cbn [SFadd]. split; [reflexivity|lia].
  - destruct s; [tauto|]. destruct HU as [He Hm]. unfold SFadd. cbv zeta.
    cbn [cond_Zopp]. replace (Z.min (-51) eu) with eu by lia.
    destruct (shl_align_le 4503599627370496 (-51) eu ltac:(lia)) as (m1 & -> & E1).
    destruct (shl_align_le mu eu eu ltac:(lia)) as (m2 & -> & E2).
    cbn [fst]. rewrite Z.sub_diag in E2. change (2 ^ 0) with 1 in E2.
    pose proof (pow2_pos (-53 - eu) ltac:(lia)) as HJ.
    assert (EJ : 2 ^ (-51 - eu) = 4 * 2 ^ (-53 - eu)).
    { replace (-51 - eu) with (2 + (-53 - eu)) by lia.
      now rewrite pow2_split by lia. }
    set (J := 2 ^ (-53 - eu)) in *.
    change (Zpos m1 + Zpos m2) with (Zpos (m1 + m2)). cbn [binary_normalize].
    assert (HS1 : 2 * Zpos (m1 + m2) < (2 * (3 * 2 ^ 51) + 1) * 2 ^ (-51 - eu))
      by (rewrite Pos2Z.inj_add, EJ; lia).
    assert (HS2 : 2 ^ 52 * 2 ^ (-51 - eu) <= Zpos (m1 + m2))
      by (rewrite Pos2Z.inj_add, EJ; lia).
    destruct (round_bounded false (m1 + m2) eu (3 * 2 ^ 51) (-51)
                ltac:(lia) ltac:(lia) ltac:(lia) HS1) as [Hb Hs].
    destruct (round_lower false (m1 + m2) eu (2 ^ 52) (-51)
                ltac:(lia) ltac:(lia) ltac:(lia) HS2) as [Hi|(m' & e' & Hf & Hl)].
    + rewrite Hi in Hb. destruct Hb.
    + rewrite Hf in Hb |- *. cbn [bounded_by] in Hb. destruct Hb as [He' Hm'].
      assert (e' = -51) by lia. subst e'. exists m'. split; [reflexivity|].
      change (2 ^ (-51 - -51)) with 1 in Hm'. lia.
Qed.

End Binary64Facts.

(** ** The ranges of the throw *)

Module ThrowRanges.
Import Binary64 Binary64Facts.

Lemma SFleb_same_exponent (m1 m2 : positive) e :
  (Zpos m1 <= Zpos m2)%Z ->
  SFleb (S754_finite false m1 e) (S754_finite false m2 e) = true.
Proof.
  intros H. unfold SFleb, SFcompare. rewrite Z.compare_refl.
  change (Pos.compare_cont Eq m1 m2) with (Pos.compare m1 m2).
  destruct (Pos.compare_spec m1 m2) as [C|C|C]; try reflexivity.
  apply Pos2Z.pos_lt_pos in C. lia.
Qed.

Lemma within_of_bounded x lo hi mC eC :
  bounded_by (Zpos mC) eC (Prim2SF x) ->
  Prim2SF lo = S754_finite true mC eC ->
  Prim2SF hi = S754_finite false mC eC ->
  between lo hi x = true.
Proof.
  intros Hb Elo Ehi. unfold between.
  rewrite !FloatAxioms.leb_spec, Elo, Ehi.
  destruct (Prim2SF x) as [s|s| |s m e]; cbn [bounded_by] in Hb;
    [reflexivity|destruct Hb|destruct Hb|].
  destruct Hb as [He Hm]. unfold SFleb, SFcompare. destruct s.
  - rewrite andb_true_r.
    destruct (Z.compare_spec eC e) as [E|E|E]; [|lia|reflexivity].
    subst e. rewrite Z.sub_diag in Hm. change (2 ^ 0)%Z with 1%Z in Hm.
    change (Pos.compare_cont Eq mC m) with (Pos.compare mC m).
    destruct (Pos.compare_spec mC m) as [C|C|C]; try reflexivity.
    apply Pos2Z.pos_lt_pos in C. lia.
  - cbn [andb].
    destruct (Z.compare_spec e eC) as [E|E|E]; [|reflexivity|lia].
    subst e. rewrite Z.sub_diag in Hm. change (2 ^ 0)%Z with 1%Z in Hm.
    change (Pos.compare_cont Eq m mC) with (Pos.compare m mC).
    destruct (Pos.compare_spec m mC) as [C|C|C]; try reflexivity.
    apply Pos2Z.pos_lt_pos in C. lia.
Qed.

Lemma below_of_bounded x hi mC mH eC :
  bounded_by (Zpos mC) eC (Prim2SF x) -> nonneg (Prim2SF x) ->
  Prim2SF hi = S754_finite false mH eC ->
  (Zpos mC < Zpos mH)%Z ->
  (0 <=? x) = true /\ (x <? hi) = true.
Proof.
  intros Hb Hn Ehi Hlt.
  rewrite FloatAxioms.leb_spec, FloatAxioms.ltb_spec, Ehi.
  change (Prim2SF 0) with (S754_zero false).
  destruct (Prim2SF x) as [s|s| |s m e]; cbn [bounded_by nonneg] in Hb, Hn;
    [split; reflexivity|destruct Hb|destruct Hb|].
  destruct s; [destruct Hn|]. destruct Hb as [He Hm]. split; [reflexivity|].
  unfold SFltb, SFcompare.
  destruct (Z.compare_spec e eC) as [E|E|E]; [|reflexivity|lia].
  subst e. rewrite Z.sub_diag in Hm. change (2 ^ 0)%Z with 1%Z in Hm.
  change (Pos.compare_cont Eq m mH) with (Pos.compare m mH).
  destruct (Pos.compare_spec m mH) as [C|C|C]; try reflexivity.
  - subst m. lia.
  - apply Pos2Z.pos_lt_pos in C. lia.
Qed.

(** (r - 0.5) * c for a draw r and a positive constant c: within -C .. C
    when |0.5 * c| <= C. *)
Lemma centered_range r c lo hi mc ec mC eC :
  in_unit_interval r = true ->
  Prim2SF c = S754_finite false mc ec ->
  Prim2SF lo = S754_finite true mC eC ->
  Prim2SF hi = S754_finite false mC eC ->
  (2 ^ 52 <= Zpos mC < 2 ^ 53)%Z -> (-1074 <= eC <= 971)%Z ->
  (0 <= eC - -53 - ec)%Z ->
  (2 * 2 ^ 52 * Zpos mc < (2 * Zpos mC + 1) * 2 ^ (eC - -53 - ec))%Z ->
  between lo hi ((r - 0.5) * c) = true.
Proof.
  intros Hr Ec Elo Ehi HmC HeC Hc Hlt.
  apply within_of_bounded with (mC := mC) (eC := eC); try assumption.
  rewrite mul_spec, sub_spec, Ec.
  change (Prim2SF 0.5) with (S754_finite false 4503599627370496 (-53)).
  apply (mul_bounded _ false mc ec (2 ^ 52) (-53)); try assumption.
  - apply sub_half_bounded. now apply unit_interval_spec.
  - reflexivity.
Qed.

Lemma roll_impulse_range r :
  in_unit_interval r = true ->
  between (-1.75) 1.75 ((r - 0.5) * impulseStrength) = true.
Proof.
  intros Hr.
  apply (centered_range r impulseStrength (-1.75) 1.75
           7881299347898368 (-51) 7881299347898368 (-52) Hr);
    try reflexivity; closed_Z.
Qed.

Lemma roll_torque_range r :
  in_unit_interval r = true ->
  between (-5) 5 ((r - 0.5) * torqueStrength) = true.
Proof.
  intros Hr.
  apply (centered_range r torqueStrength (-5) 5
           5629499534213120 (-49) 5629499534213120 (-50) Hr);
    try reflexivity; closed_Z.
Qed.

Lemma euler_angle_range r :
  in_unit_interval r = true ->
  (0 <=? r * Math_PI * 2) = true /\ (r * Math_PI * 2 <? Math_PI * 2) = true.
Proof.
  intros Hr.
  destruct (unit_like_bounded _ (unit_interval_spec r Hr)) as [Hb Hn].
  assert (E2pi : Prim2SF (Math_PI * 2) = S754_finite false 7074237752028440 (-50))
    by (vm_compute; reflexivity).
  destruct (mul_bounded (Prim2SF r) false 7074237752028440 (-51)
              (2 ^ 53 - 1) (-53) 7074237752028439 (-51) Hb) as [Hb1 Hn1];
    try closed_Z.
  destruct (mul_bounded _ false 4503599627370496 (-51)
              7074237752028439 (-51) 7074237752028439 (-50) Hb1) as [Hb2 Hn2];
    try closed_Z.
  apply (below_of_bounded _ _ 7074237752028439 7074237752028440 (-50)).
  - rewrite !mul_spec. exact Hb2.
  - rewrite !mul_spec. apply Hn2; [reflexivity|]. now apply Hn1.
  - exact E2pi.
  - closed_Z.
Qed.

Lemma roll_iy_range r :
  in_unit_interval r = true ->
  between 2 3 (upBoost + r * 1.0) = true /\ (0 <? upBoost + r * 1.0) = true.
Proof.
  intros Hr.
  destruct (unit_like_bounded _ (unit_interval_spec r Hr)) as [Hb Hn].
  destruct (mul_bounded (Prim2SF r) false 4503599627370496 (-52)
              (2 ^ 53 - 1) (-53) (2 ^ 53 - 1) (-53) Hb) as [Hb1 Hn1];
    try closed_Z.
  destruct (add_two_spec _ Hb1 (Hn1 eq_refl Hn)) as (m' & E & Hlo & Hhi).
  assert (Ei : Prim2SF (upBoost + r * 1.0) = S754_finite false m' (-51)).
  { rewrite add_spec, mul_spec. exact E. }
  unfold between.
  rewrite !FloatAxioms.leb_spec, FloatAxioms.ltb_spec, Ei.
  change (Prim2SF 2) with (S754_finite false 4503599627370496 (-51)).
  change (Prim2SF 3) with (S754_finite false 6755399441055744 (-51)).
  change (Prim2SF 0) with (S754_zero false).
  rewrite !SFleb_same_exponent; [split; reflexivity| |].
  - change (Zpos 6755399441055744) with (3 * 2 ^ 51)%Z. exact Hhi.
  - change (Zpos 4503599627370496) with (2 ^ 52)%Z. exact Hlo.
Qed.

End ThrowRanges.

(** C6: a call of [roll] on a present body sets the Rolling state and
    calls, in this order, setTranslation(spawn), setLinvel(0), setAngvel(0),
    setRotation of the quaternion built by setFromEuler from three angles,
    wakeUp, one applyImpulse and one applyTorqueImpulse.  Each of the nine
    quantities is computed from a call of Math.random() of its own, the
    draws 0 to 8 in this order: the angles are draw * PI * 2, the X and Z
    components of the impulse (draw - 0.5) * 3.5, its Y component
    2.0 + draw * 1.0, the components of the torque (draw - 0.5) * 10.
    Whatever the draw in [0, 1): the angle is in [0, 2 PI), the X and Z
    impulses in [-1.75, 1.75], the Y impulse in [2, 3], hence positive, the
    torques in [-5, 5]; the ends of the ranges are reached, at the draw 0
    and at the largest draw below 1, and the middle and the quarters of
    the draws give the middle and the quarters of the ranges. *)
Theorem C6_roll_throw (M : MathImpl) (spawn : Vec3) (body : RigidBody)
    (rolling : bool) (random : Random) :
  let angle r := r * 3.141592653589793 * 2 in
  let impulse r := (r - 0.5) * 3.5 in
  let lift r := 2.0 + r * 1.0 in
  let torque r := (r - 0.5) * 10.0 in
  let greatest := 0x1.fffffffffffffp-1 in
  roll M spawn (Some body) rolling random
  = mkRoll true
      [ setTranslation spawn true
      ; setLinvel (mkVec3 0 0 0) true
      ; setAngvel (mkVec3 0 0 0) true
      ; setRotation (setFromEuler M (angle (random 0%nat)) (angle (random 1%nat))
                       (angle (random 2%nat))) true
      ; wakeUp
      ; applyImpulse (mkVec3 (impulse (random 3%nat)) (lift (random 5%nat))
                        (impulse (random 4%nat))) true
      ; applyTorqueImpulse (mkVec3 (torque (random 6%nat)) (torque (random 7%nat))
                              (torque (random 8%nat))) true ]
      9
  /\ length (filter is_applyImpulse
               (roll_calls (roll M spawn (Some body) rolling random))) = 1%nat
  /\ length (filter is_applyTorqueImpulse
               (roll_calls (roll M spawn (Some body) rolling random))) = 1%nat
  /\ (forall r,
        in_unit_interval r = true ->
        (0 <=? angle r) = true /\ (angle r <? 3.141592653589793 * 2) = true
        /\ between (-1.75) 1.75 (impulse r) = true
        /\ between 2 3 (lift r) = true /\ (0 <? lift r) = true
        /\ between (-5) 5 (torque r) = true)
  /\ (angle 0 = 0 /\ impulse 0 = -1.75 /\ lift 0 = 2 /\ torque 0 = -5)
  /\ (in_unit_interval greatest = true
      /\ angle greatest = 0x1.921fb54442d17p+2
      /\ 3.141592653589793 * 2 = 0x1.921fb54442d18p+2
      /\ impulse greatest = 1.7499999999999996
      /\ lift greatest = 3
      /\ torque greatest = 4.9999999999999991)
  /\ (angle 0.5 = 3.141592653589793 /\ impulse 0.5 = 0 /\ lift 0.5 = 2.5
      /\ torque 0.5 = 0
      /\ impulse 0.25 = -0.875 /\ impulse 0.75 = 0.875
      /\ lift 0.25 = 2.25 /\ lift 0.75 = 2.75
      /\ torque 0.25 = -2.5 /\ torque 0.75 = 2.5)
  /\ (3.5 / 2 = 1.75 /\ 10.0 / 2 = 5 /\ 2.0 + 1.0 = 3).
Proof.
  cbv zeta.
  split; [destruct spawn; reflexivity|].
  split; [reflexivity|]. split; [reflexivity|].
  split.
  { intros r Hr.
    destruct (ThrowRanges.euler_angle_range r Hr) as [A1 A2].
    destruct (ThrowRanges.roll_iy_range r Hr) as [L1 L2].
    split; [exact A1|]. split; [exact A2|].
    split; [exact (ThrowRanges.roll_impulse_range r Hr)|].
    split; [exact L1|]. split; [exact L2|].
    exact (ThrowRanges.roll_torque_range r Hr). }
  split; [vm_compute; repeat split|].
  split; [vm_compute; repeat split|].
  split; [vm_compute; repeat split|].
  vm_compute; repeat split.
Qed.

(** C6 with every draw equal to 0.25. *)
Lemma C6_witness :
  between 2 3 (2.0 + 0.25 * 1.0) = true.
Proof.
  exact (proj1 (proj2 (proj2 (proj2 (proj1 (proj2 (proj2 (proj2
           (C6_roll_throw sample_Math (mkVec3 0 10 0)
              (mkBody (mkVec3 0 0 0) (mkVec3 0 0 0) q_identity) false
              (fun _ => 0.25)))))
           0.25 eq_refl))))).
Defined.

(* ================================================================== *)
(** * Further properties of the dice and of the scene *)
(* ================================================================== *)

(** ** What one die reports *)

Lemma polls_idle M obs : forall d,
  rolling d = false -> polls M d (map poll obs) = (d, []).
Proof.
  induction obs as [|rb obs IH]; intros d Hd; [reflexivity|].
  cbn [map polls]. rewrite (poll_die_idle M d rb Hd). now rewrite (IH d Hd).
Qed.

Lemma polls_between_renders M obs : forall d,
  rolling d = true -> snd (polls M d (map poll obs)) = faces_at_rest M obs.
Proof.
  induction obs as [|rb obs IH]; intros d Hd; [reflexivity|].
  cbn [map polls faces_at_rest flat_map].
  fold (faces_at_rest M obs).
  rewrite (poll_die_rolling M d rb Hd).
  destruct rb as [body|].
  - destruct (at_rest M body).
    + specialize (IH (mkDie (spawn d) (in_diceRefs d) true false) eq_refl).
      destruct (polls M _ (map poll obs)). cbn [snd] in *. now rewrite IH.
    + specialize (IH d Hd). destruct (polls M d (map poll obs)). exact IH.
  - specialize (IH d Hd). destruct (polls M d (map poll obs)). exact IH.
Qed.

Lemma polls_rendered_idle M obs : forall d,
  rolling d = false -> rolling_next d = false ->
  polls M d (rendered_each_poll obs) = (d, []).
Proof.
  induction obs as [|rb obs IH]; intros d Hd Hn; [reflexivity|].
  cbn [rendered_each_poll polls]. rewrite (poll_die_idle M d rb Hd).
  assert (E : render_die d = d) by (destruct d; cbn in *; now subst).
  rewrite E. now rewrite (IH d Hd Hn).
Qed.

(** X1: what a die reports.  Between two renders a die whose callback
    reads rolling = true reports at every tick at which its body is present
    and at rest, not only at the first, each time with the face it shows at
    that tick; a die whose callback reads rolling = false reports nothing.
    When React renders the component after every tick, a rolling die
    reports once, the face shown at the first tick at which its body is at
    rest, and is idle from then on; if there is no such tick it reports
    nothing and is still rolling: the poll has no timeout. *)
Theorem X1_reports_of_a_die (M : MathImpl) (obs : list (option RigidBody)) :
  (forall d, rolling d = true -> snd (polls M d (map poll obs)) = faces_at_rest M obs)
  /\ (forall d, rolling d = false -> polls M d (map poll obs) = (d, []))
  /\ (forall d,
        rolling d = true -> rolling_next d = true ->
        polls M d (rendered_each_poll obs)
        = match first_at_rest M obs with
          | Some body => (mkDie (spawn d) (in_diceRefs d) false false,
                          [getDiceValue (rotation body)])
          | None => (d, [])
          end).
Proof.
  split; [intros d; apply polls_between_renders|].
  split; [intros d; apply polls_idle|].
  induction obs as [|rb obs IH]; intros d Hd Hn; [reflexivity|].
  cbn [rendered_each_poll polls first_at_rest].
  rewrite (poll_die_rolling M d rb Hd).
  assert (E : render_die d = d) by (destruct d; cbn in *; now subst).
  destruct rb as [body|].
  - destruct (at_rest M body).
    + cbn [render_die rolling_next spawn in_diceRefs].
      now rewrite polls_rendered_idle.
    + rewrite E. rewrite (IH d Hd Hn). now destruct (first_at_rest M obs).
  - rewrite E. rewrite (IH d Hd Hn). now destruct (first_at_rest M obs).
Qed.

(** ** The draws of a throw *)

(** X2: [roll] reads its first nine draws only, and a click with the three
    bodies present gives each die nine draws of its own: the calls made on
    the body of die i are those of a throw from spawns[i] with the draws
    9 i to 9 i + 8, in every state the scene can be in. *)
Theorem X2_each_die_has_its_own_draws
    (M : MathImpl) (events : list UIEvent) (b0 b1 b2 : RigidBody) (random : Random) :
  let thrown i body :=
    roll_calls (roll M (nth i spawns (mkVec3 0 0 0)) (Some body) false
                  (draws_from (9 * i) random)) in
  snd (rollAll M [Some b0; Some b1; Some b2] random (ui_run M events))
  = [thrown 0%nat b0; thrown 1%nat b1; thrown 2%nat b2]
  /\ (forall spawn rb_current rolling random',
        (forall k, (k < 9)%nat -> random k = random' k) ->
        roll M spawn rb_current rolling random
        = roll M spawn rb_current rolling random').
Proof.
  cbv zeta. split; [|intros; now apply roll_reads_nine_draws].
  destruct (ui_run_mounted M events) as [Hs Hr].
  set (w := ui_run M events) in *.
  assert (Hlen : length (snd (rollAll M [Some b0; Some b1; Some b2] random w)) = 3%nat).
  { unfold rollAll.
    assert (L : forall ds bodies rnd,
               length (snd (roll_each M ds bodies rnd)) = length ds).
    { induction ds as [|d ds IH]; intros bodies rnd; [reflexivity|].
      cbn [roll_each]. destruct (in_diceRefs d).
      - specialize (IH (tl bodies)
                      (fun k => rnd (roll_draws (roll M (spawn d) (hd None bodies)
                                                   (rolling_next d) rnd) + k)%nat)).
        destruct (roll_each M ds (tl bodies) _). cbn in *. now rewrite IH.
      - specialize (IH (tl bodies) rnd).
        destruct (roll_each M ds (tl bodies) rnd). cbn in *. now rewrite IH. }
    specialize (L (dice w) [Some b0; Some b1; Some b2] random).
    destruct (roll_each M (dice w) _ random). cbn in *.
    rewrite L, <- (length_map spawn), Hs. reflexivity. }
  assert (Hnth : forall i body,
             (i < 3)%nat -> nth i [Some b0; Some b1; Some b2] None = Some body ->
             nth_error (snd (rollAll M [Some b0; Some b1; Some b2] random w)) i
             = Some (roll_calls (roll M (nth i spawns (mkVec3 0 0 0)) (Some body) false
                                   (draws_from (9 * i) random)))).
  { intros i body Hi Hb.
    destruct (mounted_nth (dice w) i (conj Hs Hr) Hi) as (d & Hd & _ & Hsp).
    unfold rollAll.
    pose proof (roll_each_present M (dice w) [Some b0; Some b1; Some b2] random i d body
                  Hr) as H.
    destruct (roll_each M (dice w) _ random) as [ds calls]. cbn [snd] in *.
    rewrite H; try assumption.
    - rewrite Hsp. reflexivity.
    - intros j Hj. destruct j as [|[|[|j]]]; cbn; eauto; lia. }
  destruct (snd (rollAll M [Some b0; Some b1; Some b2] random w)) as [|c0 [|c1 [|c2 [|c3 t]]]];
    try discriminate.
  pose proof (Hnth 0%nat b0 ltac:(lia) eq_refl) as H0.
  pose proof (Hnth 1%nat b1 ltac:(lia) eq_refl) as H1.
  pose proof (Hnth 2%nat b2 ltac:(lia) eq_refl) as H2.
  cbn [nth_error] in H0, H1, H2.
  injection H0 as ->. injection H1 as ->. injection H2 as ->. reflexivity.
Qed.

(** ** What every state of the scene satisfies *)

Lemma getDiceValue_range q : (1 <= getDiceValue q <= 6)%Z.
Proof.
  unfold getDiceValue.
  destruct (scan_value_from q faceMap (1%Z, neg_infinity)) as [E|E].
  - rewrite E. cbn [fst]. lia.
  - cbn [map faceMap value] in E.
    destruct E as [<-|[<-|[<-|[<-|[<-|[<-|[]]]]]]]; lia.
Qed.

Lemma poll_die_cases M d rb_current :
  poll_die M d rb_current = (d, None)
  \/ (rolling d = true
      /\ exists body,
           rb_current = Some body /\ at_rest M body = true
           /\ poll_die M d rb_current
              = (mkDie (spawn d) (in_diceRefs d) true false,
                 Some (getDiceValue (rotation body)))).
Proof.
  destruct (rolling d) eqn:Hd; [|left; now apply poll_die_idle].
  rewrite (poll_die_rolling M d rb_current Hd).
  destruct rb_current as [body|]; [|now left].
  destruct (at_rest M body) eqn:Hb; [right|now left].
  split; [reflexivity|]. exists body. now rewrite Hb.
Qed.

Lemma spread_cell_ok l : Forall cell_ok l -> spread l = l.
Proof.
  unfold spread. induction 1 as [|c l Hc _ IH]; [reflexivity|].
  cbn [map]. rewrite IH.
  destruct Hc as [->|(v & -> & _)]; reflexivity.
Qed.

Lemma Forall_array_set {P : Cell -> Prop} l i c :
  Forall P l -> P c -> (i < length l)%nat -> Forall P (array_set l i c).
Proof.
  intros Hl Hc. revert i. induction Hl as [|h l Hh Hl IH]; intros [|i] Hi; cbn in *;
    try lia; constructor; auto. apply IH. lia.
Qed.

Lemma three_ones l :
  length l = 3%nat -> Forall cell_ok l -> every_not_null l = true ->
  sum_of l = 3%Z -> l = [number 1; number 1; number 1].
Proof.
  intros Hlen Hok Hall Hsum.
  destruct l as [|c0 [|c1 [|c2 [|c3 t]]]]; try discriminate.
  inversion Hok as [|? ? H0 Hok1]; subst.
  inversion Hok1 as [|? ? H1 Hok2]; subst.
  inversion Hok2 as [|? ? H2 _]; subst.
  destruct H0 as [->|(v0 & -> & R0)]; [discriminate|].
  destruct H1 as [->|(v1 & -> & R1)]; [discriminate|].
  destruct H2 as [->|(v2 & -> & R2)]; [discriminate|].
  cbn in Hsum.
  assert (v0 = 1 /\ v1 = 1 /\ v2 = 1)%Z as (-> & -> & ->) by lia. reflexivity.
Qed.

Lemma every_not_null_set l : forall i v,
  every_not_null l = true -> (i < length l)%nat ->
  every_not_null (array_set l i (number v)) = true.
Proof.
  unfold every_not_null.
  induction l as [|h l IH]; intros i v H Hi; cbn in *; [lia|].
  apply andb_prop in H as [Hh Hl]. destruct i as [|i]; cbn.
  - exact Hl.
  - rewrite Hh. apply IH; [exact Hl|lia].
Qed.

Lemma scene_after_settle i v a :
  (i < N)%nat -> (1 <= v <= 6)%Z ->
  scene_ok a -> scene_ok (fst (onSettled i v a)).
Proof.
  intros Hi Hv (Hlen & Hcells & Hfinal & Hmodal).
  assert (Hin : (i < length (pendingValues a))%nat) by (rewrite Hlen; exact Hi).
  assert (Hnext : Forall cell_ok (array_set (spread (pendingValues a)) i (number v))).
  { rewrite (spread_cell_ok _ Hcells). apply Forall_array_set; auto.
    right. eauto. }
  assert (Hlen3 : length (array_set (spread (pendingValues a)) i (number v)) = N).
  { rewrite array_set_length by (now rewrite spread_length).
    now rewrite spread_length. }
  unfold onSettled.
  destruct (every_not_null (array_set (spread (pendingValues a)) i (number v))) eqn:Hall.
  - destruct (sum_of _ =? 3)%Z eqn:Hsum;
      cbn [fst pendingValues finalValues modalOpen modalContent].
    + apply Z.eqb_eq in Hsum.
      pose proof (three_ones _ Hlen3 Hnext Hall Hsum) as E3.
      split; [exact Hlen3|]. split; [exact Hnext|]. split; [right; now split|].
      intros _. rewrite E3. split; [discriminate|reflexivity].
    + split; [exact Hlen3|]. split; [exact Hnext|]. split; [right; now split|].
      intros E. split; [discriminate|]. exact (proj2 (Hmodal E)).
  - cbn [fst pendingValues finalValues modalOpen modalContent].
    split; [exact Hlen3|]. split; [exact Hnext|]. split; [|exact Hmodal].
    destruct Hfinal as [E|[_ E]]; [now left|exfalso].
    rewrite (spread_cell_ok _ Hcells) in Hall.
    rewrite (every_not_null_set _ i v E Hin) in Hall. discriminate.
Qed.

Lemma frame_from_scene M ds : forall i bodies a,
  (i + length ds <= N)%nat ->
  scene_ok a -> scene_ok (snd (fst (frame_from M i ds bodies a))).
Proof.
  induction ds as [|d ds IH]; intros i bodies a Hi HK; [exact HK|].
  cbn [length] in Hi. cbn [frame_from].
  destruct (poll_die_cases M d (hd None bodies)) as [E|(_ & body & _ & _ & E)];
    rewrite E.
  - specialize (IH (S i) (tl bodies) a ltac:(lia) HK).
    destruct (frame_from M (S i) ds (tl bodies) a) as [[ds'' a2] log2]. exact IH.
  - pose proof (scene_after_settle i _ a ltac:(lia)
                  (getDiceValue_range (rotation body)) HK) as HK1.
    destruct (onSettled i (getDiceValue (rotation body)) a) as [a1 log1].
    cbn [fst] in HK1.
    specialize (IH (S i) (tl bodies) a1 ltac:(lia) HK1).
    destruct (frame_from M (S i) ds (tl bodies) a1) as [[ds'' a2] log2]. exact IH.
Qed.

Lemma mounted_length ds : mounted ds -> length ds = N.
Proof. intros [Hs _]. rewrite <- (length_map spawn), Hs. reflexivity. Qed.

Lemma ui_step_scene M w e :
  mounted (dice w) -> scene_ok (app w) -> scene_ok (app (ui_step M w e)).
Proof.
  intros Hm HK. destruct e as [bodies random|bodies| |]; cbn [ui_step].
  - rewrite rollAll_app. split; [reflexivity|].
    split; [repeat constructor; now left|]. split; [now left|discriminate].
  - unfold frame.
    pose proof (frame_from_scene M (dice w) 0 bodies (app w)) as H.
    rewrite (mounted_length _ Hm) in H. specialize (H (Nat.le_refl _) HK).
    destruct (frame_from M 0 (dice w) bodies (app w)) as [[ds a] log]. exact H.
  - exact HK.
  - destruct HK as (Hlen & Hcells & Hfinal & _).
    cbn [app closeModal]. split; [exact Hlen|]. split; [exact Hcells|].
    split; [exact Hfinal|]. discriminate.
Qed.

Lemma ui_run_scene M events : scene_ok (app (ui_run M events)).
Proof.
  assert (H : mounted (dice (ui_run M events)) /\ scene_ok (app (ui_run M events))).
  { unfold ui_run. rewrite <- fold_left_rev_right.
    induction (rev events) as [|e es [IHm IHs]].
    - split; [now split|]. split; [reflexivity|].
      split; [repeat constructor; now left|]. split; [now left|discriminate].
    - cbn [fold_right]. split; [now apply ui_step_mounted|now apply ui_step_scene]. }
  exact (proj2 H).
Qed.

Lemma scene_results a :
  scene_ok a ->
  finalValues a = None
  \/ exists v0 v1 v2,
       (1 <= v0 <= 6 /\ 1 <= v1 <= 6 /\ 1 <= v2 <= 6)%Z
       /\ finalValues a = Some [number v0; number v1; number v2]
       /\ pendingValues a = [number v0; number v1; number v2].
Proof.
  intros (L & Hcells & Hfinal & _).
  destruct Hfinal as [E|[E Hall]]; [now left|right].
  destruct (pendingValues a) as [|c0 [|c1 [|c2 [|c3 t]]]]; try discriminate.
  inversion Hcells as [|? ? H0 Hok1]; subst.
  inversion Hok1 as [|? ? H1 Hok2]; subst.
  inversion Hok2 as [|? ? H2 _]; subst.
  cbn in Hall.
  destruct H0 as [->|(v0 & -> & R0)]; [discriminate|].
  destruct H1 as [->|(v1 & -> & R1)]; [discriminate|].
  destruct H2 as [->|(v2 & -> & R2)]; [discriminate|].
  exists v0, v1, v2. repeat split; try lia; assumption.
Qed.


(** X4: the modal opens only on a triple one.  In every state the mounted
    scene can reach, if the modal is open then its content is the
    congratulation for the values 1, 1, 1 and finalValues holds three face
    values. *)
Theorem X4_modal_only_after_triple_one (M : MathImpl) (events : list UIEvent) :
  let a := app (ui_run M events) in
  modalOpen a = true ->
  modalContent a = content_congratulations [number 1; number 1; number 1]
  /\ exists v0 v1 v2,
       (1 <= v0 <= 6 /\ 1 <= v1 <= 6 /\ 1 <= v2 <= 6)%Z
       /\ finalValues a = Some [number v0; number v1; number v2].
Proof.
  cbv zeta. intros Hopen. pose proof (ui_run_scene M events) as H.
  destruct (scene_results _ H) as [E|(v0 & v1 & v2 & R & E & _)].
  - destruct H as (_ & _ & _ & Hmodal). destruct (Hmodal Hopen) as [Hf _].
    contradiction.
  - destruct H as (_ & _ & _ & Hmodal). destruct (Hmodal Hopen) as [_ Hc].
    split; [exact Hc|]. now exists v0, v1, v2.
Qed.

(** X4 on a run: three dice thrown, rendered, and at rest on the face 1. *)
Lemma X4_witness :
  let a := app (ui_run sample_Math
                  [ ui_click [resting q_identity; resting q_identity; resting q_identity]
                      (fun _ => 0.25)
                  ; ui_render
                  ; ui_tick [resting q_identity; resting q_identity; resting q_identity] ]) in
  modalContent a = content_congratulations [number 1; number 1; number 1].
Proof.
  exact (proj1 (X4_modal_only_after_triple_one sample_Math
                  [ ui_click [resting q_identity; resting q_identity; resting q_identity]
                      (fun _ => 0.25)
                  ; ui_render
                  ; ui_tick [resting q_identity; resting q_identity; resting q_identity] ]
                  eq_refl)).
Defined.

(** ** A roll cycle from the click to the result *)





(** ** A roll cycle on any schedule *)




(** ** A click while a body is missing *)

Lemma nth_null_in_range (l : list Cell) k : nth k l empty = null -> (k < length l)%nat.
Proof.
  intros H. destruct (Nat.lt_ge_cases k (length l)) as [L|L]; [exact L|].
  rewrite nth_overflow in H by exact L. discriminate.
Qed.

Lemma array_set_nth_null l : forall i k v,
  i <> k -> nth k l empty = null -> nth k (array_set l i v) empty = null.
Proof.
  induction l as [|h l IH]; intros i k v Hik H.
  - destruct k; discriminate.
  - destruct i as [|i], k as [|k]; cbn in *; try congruence.
    apply IH; [lia|exact H].
Qed.

Lemma onSettled_beside_null i k v a :
  i <> k -> nth k (pendingValues a) empty = null ->
  onSettled i v a
  = (mkApp (array_set (spread (pendingValues a)) i (number v))
           (finalValues a) (modalOpen a) (modalContent a), [])
  /\ nth k (array_set (spread (pendingValues a)) i (number v)) empty = null.
Proof.
  intros Hik Hk.
  assert (E : nth k (array_set (spread (pendingValues a)) i (number v)) empty = null).
  { apply array_set_nth_null; [exact Hik|]. now apply spread_nth_null. }
  split; [|exact E]. apply onSettled_incomplete. exact (every_not_null_nth _ _ E).
Qed.

(** The reports of the dice from the index [j] on leave a null slot below
    [j] as it is. *)
Lemma frame_from_beside M ds : forall j bodies a p,
  (p < j)%nat -> nth p (pendingValues a) empty = null ->
  let res := frame_from M j ds bodies a in
  nth p (pendingValues (snd (fst res))) empty = null
  /\ finalValues (snd (fst res)) = finalValues a
  /\ modalOpen (snd (fst res)) = modalOpen a
  /\ snd res = [].
Proof.
  induction ds as [|d ds IH]; intros j bodies a p Hp Hnull; cbv zeta; [now cbn|].
  cbn [frame_from].
  destruct (poll_die_cases M d (hd None bodies)) as [E|(_ & body & _ & _ & E)];
    rewrite E.
  - specialize (IH (S j) (tl bodies) a p ltac:(lia) Hnull). cbv zeta in IH.
    destruct (frame_from M (S j) ds (tl bodies) a) as [[ds'' a2] log2]. exact IH.
  - destruct (onSettled_beside_null j p (getDiceValue (rotation body)) a
                ltac:(lia) Hnull) as [E1 Hnull1].
    rewrite E1.
    specialize (IH (S j) (tl bodies)
                  (mkApp (array_set (spread (pendingValues a)) j
                            (number (getDiceValue (rotation body))))
                     (finalValues a) (modalOpen a) (modalContent a))
                  p ltac:(lia) Hnull1).
    cbv zeta in IH.
    destruct (frame_from M (S j) ds (tl bodies) _) as [[ds'' a2] log2]. exact IH.
Qed.

Lemma frame_from_stuck M ds : forall j bodies a k d,
  nth_error ds k = Some d -> idle d = true ->
  nth (j + k) (pendingValues a) empty = null ->
  let res := frame_from M j ds bodies a in
  nth_error (fst (fst res)) k = Some d
  /\ nth (j + k) (pendingValues (snd (fst res))) empty = null
  /\ finalValues (snd (fst res)) = finalValues a
  /\ modalOpen (snd (fst res)) = modalOpen a
  /\ snd res = [].
Proof.
  induction ds as [|d0 ds IH]; intros j bodies a k d Hd Hidle Hnull; cbv zeta.
  - destruct k; discriminate.
  - cbn [frame_from]. destruct k as [|k]; cbn [nth_error] in Hd.
    + injection Hd as ->. rewrite Nat.add_0_r in *.
      rewrite (poll_die_idle M d (hd None bodies))
        by (unfold idle in Hidle; now destruct (rolling d)).
      pose proof (frame_from_beside M ds (S j) (tl bodies) a j ltac:(lia) Hnull) as H.
      cbv zeta in H.
      destruct (frame_from M (S j) ds (tl bodies) a) as [[ds'' a2] log2]. cbn in *.
      tauto.
    + replace (j + S k)%nat with (S j + k)%nat in * by lia.
      destruct (poll_die_cases M d0 (hd None bodies)) as [E|(_ & body & _ & _ & E)];
        rewrite E.
      * specialize (IH (S j) (tl bodies) a k d Hd Hidle Hnull). cbv zeta in IH.
        destruct (frame_from M (S j) ds (tl bodies) a) as [[ds'' a2] log2]. exact IH.
      * destruct (onSettled_beside_null j (S j + k) (getDiceValue (rotation body)) a
                    ltac:(lia) Hnull) as [E1 Hnull1].
        rewrite E1.
        specialize (IH (S j) (tl bodies)
                      (mkApp (array_set (spread (pendingValues a)) j
                                (number (getDiceValue (rotation body))))
                         (finalValues a) (modalOpen a) (modalContent a))
                      k d Hd Hidle Hnull1).
        cbv zeta in IH.
        destruct (frame_from M (S j) ds (tl bodies) _) as [[ds'' a2] log2]. exact IH.
Qed.

Lemma render_die_idle d : idle d = true -> render_die d = d.
Proof.
  destruct d as [s h r n]. unfold idle. cbn. destruct r, n; try discriminate.
  reflexivity.
Qed.

Lemma frames_stuck M beats : forall w k d,
  nth_error (dice w) k = Some d -> idle d = true ->
  nth k (pendingValues (app w)) empty = null ->
  finalValues (app (fst (frames M beats w))) = finalValues (app w)
  /\ modalOpen (app (fst (frames M beats w))) = modalOpen (app w)
  /\ snd (frames M beats w) = [].
Proof.
  induction beats as [|[bodies|] beats IH]; intros w k d Hd Hidle Hnull; [now cbn| |].
  - cbn [frames]. unfold frame.
    pose proof (frame_from_stuck M (dice w) 0 bodies (app w) k d Hd Hidle Hnull) as H.
    cbv zeta in H. destruct (frame_from M 0 (dice w) bodies (app w)) as [[ds a] log].
    cbn [fst snd app Nat.add] in H. destruct H as (Hd' & Hnull' & Hf & Hm & ->).
    specialize (IH (mkWorld ds a) k d Hd' Hidle Hnull').
    destruct (frames M beats (mkWorld ds a)) as [w2 log2]. cbn [fst snd] in *.
    cbn [app] in IH. destruct IH as (IHf & IHm & ->).
    repeat split; congruence.
  - cbn [frames]. apply (IH (render_all w) k d); [|exact Hidle|exact Hnull].
    unfold render_all. cbn [dice]. rewrite nth_error_map, Hd. cbn.
    now rewrite render_die_idle.
Qed.

(** X6: a click made while the body of an idle die is missing (rb.current
    is null) starts a cycle that cannot complete: the die stays idle with
    its slot at null, and whatever the ticks and the renders that follow
    and whatever the other dice report, no state setter is called from
    [onSettled], finalValues stays null, the modal stays closed and the
    panel shows no result.  The die is idle: its last render had
    rolling = false and no call of setRolling(true) is waiting for a
    render. *)
Theorem X6_missing_body_blocks_the_cycle
    (M : MathImpl) (events : list UIEvent) (bodies : list (option RigidBody))
    (random : Random) (beats : list Beat) (i : nat) :
  nth i (map rolling (dice (ui_run M events))) true = false ->
  nth i (map rolling_next (dice (ui_run M events))) true = false ->
  nth i bodies None = None ->
  let w1 := fst (rollAll M bodies random (ui_run M events)) in
  let w2 := fst (frames M beats w1) in
  snd (frames M beats w1) = []
  /\ finalValues (app w2) = None
  /\ modalOpen (app w2) = false
  /\ result_text (app w2) = "-"%string.
Proof.
  intros Hidle Hnext Hbody. cbv zeta.
  destruct (ui_run_mounted M events) as [Hs Hh].
  set (w := ui_run M events) in *.
  assert (Hi : (i < length (dice w))%nat).
  { destruct (Nat.lt_ge_cases i (length (dice w))) as [L|L]; [exact L|].
    rewrite nth_overflow in Hidle by (now rewrite length_map). discriminate. }
  destruct (nth_error (dice w) i) as [d|] eqn:Hd;
    [|apply nth_error_None in Hd; lia].
  assert (Hreg : in_diceRefs d = true).
  { rewrite forallb_forall in Hh. apply Hh. exact (nth_error_In _ _ Hd). }
  assert (Hrd : rolling d = false).
  { rewrite <- Hidle. symmetry.
    rewrite (nth_indep _ true (rolling d)) by (now rewrite length_map).
    rewrite map_nth. f_equal. now apply nth_error_nth. }
  assert (Hnd : rolling_next d = false).
  { rewrite <- Hnext. symmetry.
    rewrite (nth_indep _ true (rolling_next d)) by (now rewrite length_map).
    rewrite map_nth. f_equal. now apply nth_error_nth. }
  destruct (roll_each_nth M (dice w) bodies random i d Hd Hreg)
    as (k & random' & _ & H). cbv zeta in H. destruct H as [_ Hdie].
  rewrite Hbody in Hdie. cbn [roll roll_rolling] in Hdie. rewrite Hrd, Hnd in Hdie.
  assert (Hlen : length (dice w) = 3%nat).
  { rewrite <- (length_map spawn), Hs. reflexivity. }
  assert (H1 : nth_error (dice (fst (rollAll M bodies random w))) i
               = Some (mkDie (spawn d) true false false)).
  { unfold rollAll. destruct (roll_each M (dice w) bodies random) as [ds calls].
    exact Hdie. }
  pose proof (rollAll_app M bodies random w) as Ea.
  assert (Hnull : nth i (pendingValues (app (fst (rollAll M bodies random w)))) empty = null).
  { rewrite Ea. cbn [pendingValues]. destruct i as [|[|[|i]]]; try reflexivity. lia. }
  destruct (frames_stuck M beats _ i _ H1 eq_refl Hnull) as (Hf & Hm & Hlog).
  unfold result_text. rewrite Hf, Hm, Hlog, Ea. now cbn.
Qed.

(** X6 on a run: the first click comes before any body is there. *)
Lemma X6_witness :
  finalValues
    (app (fst (frames sample_Math
                 [ render
                 ; tick [resting q_identity; resting q_identity; resting q_identity]
                 ; tick [resting q_identity; resting q_identity; resting q_identity] ]
                 (fst (rollAll sample_Math [] (fun _ => 0.25) (ui_run sample_Math []))))))
  = None.
Proof.
  exact (proj1 (proj2 (X6_missing_body_blocks_the_cycle sample_Math [] []
                         (fun _ => 0.25)
                         [ render
                         ; tick [resting q_identity; resting q_identity; resting q_identity]
                         ; tick [resting q_identity; resting q_identity; resting q_identity] ]
                         0%nat eq_refl eq_refl eq_refl))).
Defined.

(** ** The panel and the modal *)

Lemma face_digit v :
  (1 <= v <= 6)%Z -> exists c, Number_toString v = String.String c String.EmptyString.
Proof.
  intros H.
  assert (v = 1 \/ v = 2 \/ v = 3 \/ v = 4 \/ v = 5 \/ v = 6)%Z
    as [->|[->|[->|[->|[->| ->]]]]] by lia;
    eexists; reflexivity.
Qed.

(** X7: what the panel shows, in every state the scene can reach: either
    no result, with a dash for the result and a dash for the total; or the
    three face values, each between 1 and 6 and written with one digit,
    separated by a comma and a space (seven characters), with their sum,
    between 3 and 18, as the total.  No incomplete result is ever shown. *)
Theorem X7_panel_texts (M : MathImpl) (events : list UIEvent) :
  let a := app (ui_run M events) in
  (finalValues a = None /\ result_text a = "-"%string /\ total_text a = "-"%string)
  \/ exists v0 v1 v2,
       (1 <= v0 <= 6 /\ 1 <= v1 <= 6 /\ 1 <= v2 <= 6)%Z
       /\ result_text a
          = String.append (Number_toString v0)
              (String.append ", "
                 (String.append (Number_toString v1)
                    (String.append ", " (Number_toString v2))))
       /\ String.length (result_text a) = 7%nat
       /\ total_text a = Number_toString (v0 + v1 + v2)
       /\ (3 <= v0 + v1 + v2 <= 18)%Z.
Proof.
  cbv zeta. unfold result_text, total_text.
  destruct (scene_results _ (ui_run_scene M events))
    as [E|(v0 & v1 & v2 & R & E & _)]; rewrite E; [now left|right].
  exists v0, v1, v2. split; [exact R|]. destruct R as (R0 & R1 & R2).
  destruct (face_digit v0 R0) as [c0 E0], (face_digit v1 R1) as [c1 E1],
    (face_digit v2 R2) as [c2 E2].
  cbn [join cell_toString sum_of fold_left]. rewrite E0, E1, E2.
  repeat split; try reflexivity; lia.
Qed.

Lemma frames_idle M beats : forall w,
  all_idle (dice w) -> frames M beats w = (w, []).
Proof.
  assert (Hframe : forall ds j bodies a,
             all_idle ds -> frame_from M j ds bodies a = (ds, a, [])).
  { unfold all_idle. induction ds as [|d ds IH]; intros j bodies a H; [reflexivity|].
    cbn [forallb] in H. apply andb_prop in H as [Hd Hds].
    cbn [frame_from]. rewrite (poll_die_idle M d (hd None bodies))
      by (unfold idle in Hd; now destruct (rolling d)).
    now rewrite (IH (S j) (tl bodies) a Hds). }
  assert (Hrender : forall ds, all_idle ds -> map render_die ds = ds).
  { unfold all_idle. induction ds as [|d ds IH]; intros H; [reflexivity|].
    cbn [forallb] in H. apply andb_prop in H as [Hd Hds].
    cbn [map]. now rewrite (render_die_idle d Hd), (IH Hds). }
  induction beats as [|[bodies|] beats IH]; intros w H; [reflexivity| |].
  - cbn [frames]. unfold frame. rewrite (Hframe _ 0%nat bodies (app w) H).
    destruct w as [ds a]. cbn [dice app] in *. now rewrite (IH (mkWorld ds a) H).
  - cbn [frames]. unfold render_all. rewrite (Hrender _ H).
    destruct w as [ds a]. cbn [dice app] in *. now apply IH.
Qed.

(** X8: an idle scene is still.  When every die is idle (its last render
    had rolling = false and no call of setRolling(true) is waiting for a
    render), ticks and renders change nothing and call no setter, whatever
    the bodies do; a click on the button of the modal changes modalOpen
    only.  So the panel keeps the result it shows until the next click on
    the roll button, also once the modal is closed. *)
Theorem X8_idle_scene_is_still (M : MathImpl) (w : World) (beats : list Beat) :
  all_idle (dice w) ->
  let closed := mkWorld (dice w) (closeModal (app w)) in
  frames M beats w = (w, [])
  /\ frames M beats closed = (closed, [])
  /\ pendingValues (app closed) = pendingValues (app w)
  /\ finalValues (app closed) = finalValues (app w)
  /\ result_text (app closed) = result_text (app w)
  /\ total_text (app closed) = total_text (app w)
  /\ modalOpen (app closed) = false.
Proof.
  intros H. cbv zeta. split; [now apply frames_idle|].
  split; [now apply frames_idle|]. repeat split.
Qed.

(** X8 on the scene as it is mounted: no die has been thrown yet. *)
Lemma X8_witness :
  frames sample_Math
    [tick [resting q_identity; resting q_identity; resting q_identity]; render]
    initial_world
  = (initial_world, []).
Proof.
  exact (proj1 (X8_idle_scene_is_still sample_Math initial_world
                  [tick [resting q_identity; resting q_identity; resting q_identity]; render]
                  eq_refl)).
Defined.

(** ** The order of the reports *)

Lemma array_set_swap (l : list Cell) : forall i j c c',
  i <> j -> (i < length l)%nat -> (j < length l)%nat ->
  array_set (array_set l i c) j c' = array_set (array_set l j c') i c.
Proof.
  induction l as [|h l IH]; intros i j c c' Hij Hi Hj; cbn in *; [lia|].
  destruct i as [|i], j as [|j]; cbn; try congruence.
  rewrite IH by lia. reflexivity.
Qed.

Lemma spread_array_set l : forall i v,
  (i < length l)%nat ->
  spread (array_set (spread l) i (number v)) = array_set (spread l) i (number v).
Proof.
  unfold spread.
  induction l as [|h l IH]; intros i v Hi; cbn in *; [lia|].
  destruct i as [|i]; cbn.
  - f_equal. rewrite map_map. apply map_ext. now intros [].
  - rewrite IH by lia. now destruct h.
Qed.

(** X9: the order of two reports does not matter.  When the slots of two
    different dice are both null, recording the face of one and then of
    the other gives the same state of [App], and the same calls of the
    state setters, as recording them the other way round; the first of
    the two reports never completes the cycle. *)
Theorem X9_reports_commute (i j : nat) (v u : Z) (a : App) :
  i <> j ->
  nth i (pendingValues a) empty = null ->
  nth j (pendingValues a) empty = null ->
  onSettled j u (fst (onSettled i v a)) = onSettled i v (fst (onSettled j u a))
  /\ snd (onSettled i v a) = []
  /\ snd (onSettled j u a) = [].
Proof.
  intros Hij Hi Hj.
  pose proof (nth_null_in_range _ _ Hi) as Li.
  pose proof (nth_null_in_range _ _ Hj) as Lj.
  destruct (onSettled_beside_null i j v a Hij Hj) as [Ei _].
  destruct (onSettled_beside_null j i u a (not_eq_sym Hij) Hi) as [Ej _].
  rewrite Ei, Ej. cbn [fst snd]. split; [|now split].
  unfold onSettled. cbn [pendingValues finalValues modalOpen modalContent].
  rewrite !spread_array_set by assumption.
  rewrite (array_set_swap (spread (pendingValues a)) i j)
    by (rewrite ?spread_length; assumption).
  reflexivity.
Qed.

(** X9 on the slots of a fresh cycle: the dice 0 and 2 report 5 and 2. *)
Lemma X9_witness :
  onSettled 2 2 (fst (onSettled 0 5 initial_app))
  = onSettled 0 5 (fst (onSettled 2 2 initial_app)).
Proof.
  exact (proj1 (X9_reports_commute 0 2 5 2 initial_app
                  ltac:(discriminate) eq_refl eq_refl)).
Defined.

(** ** A quaternion and its opposite *)

Module SignOfZero.

Lemma same_number_refl a : same_number a a.
Proof. destruct a; cbn; auto. Qed.

Lemma same_number_trans a b c :
  same_number a b -> same_number b c -> same_number a c.
Proof.
  destruct a, b, c; cbn; intros H1 H2; try discriminate; try exact I; congruence.
Qed.

Lemma flip_same s a b : same_number a b -> same_number (flip s a) (flip s b).
Proof.
  destruct s; [|exact (fun H => H)].
  destruct a, b; cbn; intros H; try discriminate; try exact I; congruence.
Qed.

Ltac same_cases :=
  repeat match goal with
    | H : same_number ?a ?b |- _ =>
        destruct a, b; cbn [same_number] in H;
        first [discriminate H | inversion H; subst; clear H]
    end.

Lemma round_aux_opp s m e l :
  binary_round_aux prec emax (negb s) m e l = SFopp (binary_round_aux prec emax s m e l).
Proof.
  unfold binary_round_aux.
  destruct (shr_fexp prec emax m e l) as [mrs' e'].
  destruct (shr_fexp prec emax _ e' loc_Exact) as [mrs'' e''].
  destruct (shr_m mrs''); [reflexivity| |reflexivity].
  destruct (e'' <=? emax - prec)%Z; reflexivity.
Qed.

Lemma SFmul_flip r t a b :
  SFmul prec emax (flip r a) (flip t b) = flip (xorb r t) (SFmul prec emax a b).
Proof.
  destruct a as [s|s| |s m e], b as [s'|s'| |s' m' e'], r, t;
    cbn [flip SFopp SFmul xorb]; try reflexivity;
    try (destruct s, s'; reflexivity);
    destruct s, s'; cbn [xorb negb];
    first [ reflexivity
          | exact (round_aux_opp false _ _ _)
          | exact (round_aux_opp true _ _ _) ].
Qed.

Lemma SFmul_same a a' b b' :
  same_number a a' -> same_number b b' ->
  same_number (SFmul prec emax a b) (SFmul prec emax a' b').
Proof.
  intros Ha Hb. same_cases; cbn [SFmul]; try apply same_number_refl; exact I.
Qed.

Lemma SFadd_same a a' b b' :
  same_number a a' -> same_number b b' ->
  same_number (SFadd prec emax a b) (SFadd prec emax a' b').
Proof.
  intros Ha Hb. same_cases; try apply same_number_refl;
    cbn [SFadd];
    repeat match goal with s : bool |- _ => destruct s end;
    cbn [same_number]; auto.
Qed.

Lemma SFsub_same a a' b b' :
  same_number a a' -> same_number b b' ->
  same_number (SFsub prec emax a b) (SFsub prec emax a' b').
Proof.
  intros Ha Hb. same_cases; try apply same_number_refl;
    cbn [SFsub];
    repeat match goal with s : bool |- _ => destruct s end;
    cbn [same_number]; auto.
Qed.

Lemma SFltb_same a a' b b' :
  same_number a a' -> same_number b b' -> SFltb a b = SFltb a' b'.
Proof. intros Ha Hb. same_cases; reflexivity. Qed.

Lemma normalize_opp z e :
  same_number (binary_normalize prec emax (- z) e false)
              (SFopp (binary_normalize prec emax z e false)).
Proof.
  destruct z as [|p|p]; cbn [Z.opp binary_normalize]; [exact I| |];
    unfold binary_round; destruct (shl_align p e _) as [mz ez].
  - rewrite (round_aux_opp false). apply same_number_refl.
  - rewrite (round_aux_opp true). destruct (binary_round_aux prec emax true _ _ _);
      cbn; auto; now rewrite ?negb_involutive.
Qed.

Lemma SFadd_opp a b :
  same_number (SFadd prec emax (SFopp a) (SFopp b)) (SFopp (SFadd prec emax a b)).
Proof.
  destruct a as [s|s| |s m e], b as [s'|s'| |s' m' e']; cbn [SFopp SFadd];
    try (destruct s, s'; cbn; auto; fail); try apply same_number_refl.
  cbv zeta.
  replace (cond_Zopp (negb s) (Z.pos (fst (shl_align m e (Z.min e e'))))
           + cond_Zopp (negb s') (Z.pos (fst (shl_align m' e' (Z.min e e')))))%Z
    with (- (cond_Zopp s (Z.pos (fst (shl_align m e (Z.min e e'))))
             + cond_Zopp s' (Z.pos (fst (shl_align m' e' (Z.min e e'))))))%Z
    by (destruct s, s'; cbn [cond_Zopp negb]; lia).
  apply normalize_opp.
Qed.

Lemma SFsub_opp a b :
  same_number (SFsub prec emax (SFopp a) (SFopp b)) (SFopp (SFsub prec emax a b)).
Proof.
  destruct a as [s|s| |s m e], b as [s'|s'| |s' m' e']; cbn [SFopp SFsub];
    try (destruct s, s'; cbn; auto; fail); try apply same_number_refl.
  cbv zeta.
  replace (cond_Zopp (negb s) (Z.pos (fst (shl_align m e (Z.min e e'))))
           - cond_Zopp (negb s') (Z.pos (fst (shl_align m' e' (Z.min e e')))))%Z
    with (- (cond_Zopp s (Z.pos (fst (shl_align m e (Z.min e e'))))
             - cond_Zopp s' (Z.pos (fst (shl_align m' e' (Z.min e e'))))))%Z
    by (destruct s, s'; cbn [cond_Zopp negb]; lia).
  apply normalize_opp.
Qed.

Lemma rel_refl x : rel false x x.
Proof. apply same_number_refl. Qed.

Lemma rel_opp x : rel true (- x) x.
Proof. unfold rel. rewrite FloatAxioms.opp_spec. apply same_number_refl. Qed.

Lemma rel_mul r t x x' y y' :
  rel r x x' -> rel t y y' -> rel (xorb r t) (x * y) (x' * y').
Proof.
  unfold rel. intros Hx Hy. rewrite !FloatAxioms.mul_spec. unfold SF64mul.
  rewrite <- SFmul_flip. now apply SFmul_same.
Qed.

Lemma rel_add r x x' y y' :
  rel r x x' -> rel r y y' -> rel r (x + y) (x' + y').
Proof.
  unfold rel. intros Hx Hy. rewrite !FloatAxioms.add_spec. unfold SF64add.
  eapply same_number_trans; [apply SFadd_same; eassumption|].
  destruct r; [apply SFadd_opp|apply same_number_refl].
Qed.

Lemma rel_sub r x x' y y' :
  rel r x x' -> rel r y y' -> rel r (x - y) (x' - y').
Proof.
  unfold rel. intros Hx Hy. rewrite !FloatAxioms.sub_spec. unfold SF64sub.
  eapply same_number_trans; [apply SFsub_same; eassumption|].
  destruct r; [apply SFsub_opp|apply same_number_refl].
Qed.

Lemma rel_ltb x x' y y' :
  rel false x x' -> rel false y y' -> (x <? y) = (x' <? y').
Proof.
  unfold rel, flip. intros Hx Hy. rewrite !FloatAxioms.ltb_spec.
  now apply SFltb_same.
Qed.

(** The four sign rules of the product. *)
Lemma rel_mul_same x x' y y' :
  rel false x x' -> rel false y y' -> rel false (x * y) (x' * y').
Proof. exact (rel_mul false false x x' y y'). Qed.

Lemma rel_mul_opp_opp x x' y y' :
  rel true x x' -> rel true y y' -> rel false (x * y) (x' * y').
Proof. exact (rel_mul true true x x' y y'). Qed.

Lemma rel_mul_opp_l x x' y y' :
  rel true x x' -> rel false y y' -> rel true (x * y) (x' * y').
Proof. exact (rel_mul true false x x' y y'). Qed.

Lemma rel_mul_opp_r x x' y y' :
  rel false x x' -> rel true y y' -> rel true (x * y) (x' * y').
Proof. exact (rel_mul false true x x' y y'). Qed.

End SignOfZero.

Create HintDb signs.
#[local] Hint Resolve SignOfZero.rel_refl SignOfZero.rel_opp SignOfZero.rel_add
  SignOfZero.rel_sub SignOfZero.rel_mul_same SignOfZero.rel_mul_opp_opp
  SignOfZero.rel_mul_opp_l SignOfZero.rel_mul_opp_r : signs.

Lemma score_opposite x y z w f :
  rel false (score (mkQuaternion (- x) (- y) (- z) (- w)) f)
            (score (mkQuaternion x y z w) f).
Proof.
  unfold score, dot, applyQuaternion. cbn [qx qy qz qw vx vy vz UP].
  auto 14 with signs nocore.
Qed.

Lemma scan_opposite x y z w table : forall best best',
  fst best = fst best' -> rel false (snd best) (snd best') ->
  fst (scan (mkQuaternion (- x) (- y) (- z) (- w)) table best)
  = fst (scan (mkQuaternion x y z w) table best').
Proof.
  unfold scan.
  induction table as [|f table IH]; intros best best' Hv Hs; [exact Hv|].
  cbn [fold_left]. apply IH; unfold visit;
    rewrite (SignOfZero.rel_ltb _ _ _ _ Hs (score_opposite x y z w f));
    destruct (snd best' <? score (mkQuaternion x y z w) f);
    cbn [fst snd]; auto using score_opposite.
Qed.

(** X10: a quaternion and its opposite stand for the same rotation, and
    [getDiceValue] reads the same face from both: for every four numbers
    (x, y, z, w), NaN and the infinities included, the quaternion
    (-x, -y, -z, -w) gives the value that (x, y, z, w) gives.  The scores
    of the two differ at most in the sign of a zero. *)
Theorem X10_opposite_quaternion_same_face (x y z w : float) :
  getDiceValue (mkQuaternion (- x) (- y) (- z) (- w)) = getDiceValue (mkQuaternion x y z w)
  /\ forall f, rel false (score (mkQuaternion (- x) (- y) (- z) (- w)) f)
                 (score (mkQuaternion x y z w) f).
Proof.
  split; [|apply score_opposite].
  unfold getDiceValue. apply scan_opposite; [reflexivity|].
  apply SignOfZero.rel_refl.
Qed.
